(** * Roma yemek rehberi scraper: the normalisation and extraction pipeline

    A shallow embedding of [script.py] (class [RomaYemekScraper] and
    [main]) together with the properties its specification states.

    Python values are modelled as the interpreter has them:
    - a [str] is a sequence of Unicode code points, [list N];
    - an [int] is a [Z];
    - a [dict] is an association list in insertion order;
    - the calls that leave the process (HTTP, the completion service,
      the file system, standard output, the logger) are threaded through
      an explicit trace of events. *)

From Stdlib Require Import String Ascii DecimalString.
From Stdlib Require Import List NArith ZArith Bool Lia.
Import ListNotations.

Set Implicit Arguments.

(** ** Python strings *)

Module PyStr.

Definition char := N.
Definition pystr := list char.

(** Source literals are written as Rocq strings holding UTF-8; [utf8]
    decodes the bytes into the code points Python sees. *)
Fixpoint bytes_of (s : string) : list N :=
  match s with
  | EmptyString => []
  | String a s' => N_of_ascii a :: bytes_of s'
  end.

Definition cont (b : N) : N := N.land b 63.

Fixpoint utf8 (bs : list N) : pystr :=
  match bs with
  | [] => []
  | b :: r =>
    if (b <? 128)%N then b :: utf8 r
    else if (b <? 224)%N then
      match r with
      | b1 :: r1 => (N.shiftl (N.land b 31) 6 + cont b1)%N :: utf8 r1
      | [] => [b]
      end
    else if (b <? 240)%N then
      match r with
      | b1 :: b2 :: r2 =>
        (N.shiftl (N.land b 15) 12 + N.shiftl (cont b1) 6 + cont b2)%N :: utf8 r2
      | _ => [b]
      end
    else
      match r with
      | b1 :: b2 :: b3 :: r3 =>
        (N.shiftl (N.land b 7) 18 + N.shiftl (cont b1) 12
         + N.shiftl (cont b2) 6 + cont b3)%N :: utf8 r3
      | _ => [b]
      end
  end.

Definition py (s : string) : pystr := utf8 (bytes_of s).

Definition NL : char := 10%N.
Definition DQ : char := 34%N.

(** [str.isspace] on one code point; it is also what [\s] matches in a
    [str] pattern and what [str.strip()] removes. *)
Definition isspace (c : char) : bool :=
  ((9 <=? c) && (c <=? 13) || (28 <=? c) && (c <=? 32)
   || (c =? 133) || (c =? 160) || (c =? 5760)
   || (8192 <=? c) && (c <=? 8202)
   || (c =? 8232) || (c =? 8233) || (c =? 8239) || (c =? 8287)
   || (c =? 12288))%N.

Definition is_nl (c : char) : bool := (c =? NL)%N.
Definition any_char (_ : char) : bool := true.

Definition str_eqb (a b : pystr) : bool :=
  if list_eq_dec N.eq_dec a b then true else false.

(** [w] is removed from the front of [s] when [s] starts with it. *)
Fixpoint strip_prefix (w s : pystr) : option pystr :=
  match w with
  | [] => Some s
  | a :: w' =>
    match s with
    | b :: s' => if (a =? b)%N then strip_prefix w' s' else None
    | [] => None
    end
  end.

(** [s.lstrip()], [s.rstrip()], [s.strip()]. *)
Fixpoint lstrip (s : pystr) : pystr :=
  match s with
  | c :: s' => if isspace c then lstrip s' else s
  | [] => []
  end.

Definition rstrip (s : pystr) : pystr := rev (lstrip (rev s)).

Definition strip (s : pystr) : pystr := rstrip (lstrip s).

(** [len(s)] and [s[:n]] for [n >= 0]. *)
Definition len (s : pystr) : Z := Z.of_nat (length s).
Definition slice_to (n : Z) (s : pystr) : pystr := firstn (Z.to_nat n) s.

(** [x in s] for strings: [x] occurs in [s]. *)
Fixpoint contains (x s : pystr) : bool :=
  match strip_prefix x s with
  | Some _ => true
  | None => match s with [] => false | _ :: s' => contains x s' end
  end.

End PyStr.
Import PyStr.

(** ** The fragment of [re] the program uses

    Every pattern of the source is a sequence of literals, one capture
    group, and repetitions of a single character class, so the matcher
    is the backtracking one of [re] restricted to these forms. *)

Module Re.

Inductive regex :=
| Lit (w : pystr)                               (* literal text *)
| Rep (cls : char -> bool) (lo : nat) (greedy : bool)  (* c{lo,} or c{lo,}? *)
| Group (r : regex)                             (* ( r ), group 1 *)
| Seq (r1 r2 : regex).

Section Matcher.
Variable A : Type.

(** exactly [n] characters of class [cls] *)
Fixpoint consume (cls : char -> bool) (n : nat) (s : pystr) : option pystr :=
  match n with
  | O => Some s
  | S n' =>
    match s with
    | c :: s' => if cls c then consume cls n' s' else None
    | [] => None
    end
  end.

(** [c*]: longest first, giving characters back while the rest fails *)
Fixpoint star_greedy (cls : char -> bool) (s : pystr)
         (k : pystr -> option A) : option A :=
  match s with
  | c :: s' =>
    if cls c then
      match star_greedy cls s' k with
      | Some a => Some a
      | None => k s
      end
    else k s
  | [] => k s
  end.

(** [c*?]: shortest first, taking one more character while the rest fails *)
Fixpoint star_lazy (cls : char -> bool) (s : pystr)
         (k : pystr -> option A) : option A :=
  match k s with
  | Some a => Some a
  | None =>
    match s with
    | c :: s' => if cls c then star_lazy cls s' k else None
    | [] => None
    end
  end.

(** [rmatch r s g k]: match [r] at the start of [s]; [g] is the text
    captured so far and [k] the rest of the pattern. *)
Fixpoint rmatch (r : regex) (s : pystr) (g : option pystr)
         (k : pystr -> option pystr -> option A) : option A :=
  match r with
  | Lit w =>
    match strip_prefix w s with
    | Some s' => k s' g
    | None => None
    end
  | Rep cls lo greedy =>
    match consume cls lo s with
    | Some s' =>
      if greedy then star_greedy cls s' (fun t => k t g)
      else star_lazy cls s' (fun t => k t g)
    | None => None
    end
  | Group r1 =>
    rmatch r1 s g
           (fun s' _ => k s' (Some (firstn (length s - length s') s)))
  | Seq r1 r2 =>
    rmatch r1 s g (fun s' g' => rmatch r2 s' g' k)
  end.
End Matcher.

(** A match found by [re.search]: the text before it, group 1, and the
    text after it. *)
Record found := Found { before : pystr; group1 : option pystr; after : pystr }.

Definition match_here (r : regex) (s : pystr) : option (option pystr * pystr) :=
  rmatch r s None (fun rest g => Some (g, rest)).

(** [re.search(r, s)]: the leftmost start position that matches. *)
Fixpoint search (r : regex) (s : pystr) : option found :=
  match match_here r s with
  | Some (g, rest) => Some (Found [] g rest)
  | None =>
    match s with
    | [] => None
    | c :: s' =>
      match search r s' with
      | Some f => Some (Found (c :: before f) (group1 f) (after f))
      | None => None
      end
    end
  end.

(** [re.sub(r, repl, s)] for a pattern that matches no empty string and
    a replacement without group references: every match, left to right,
    is replaced.  Each match consumes a character, so [length s] rounds
    are enough (lemma [sub_unfold]). *)
Fixpoint sub_rounds (n : nat) (r : regex) (repl s : pystr) : pystr :=
  match n with
  | O => s
  | S n' =>
    match search r s with
    | Some f => before f ++ repl ++ sub_rounds n' r repl (after f)
    | None => s
    end
  end.

Definition sub (r : regex) (repl s : pystr) : pystr :=
  sub_rounds (length s) r repl s.

(** the least number of characters a match of [r] consumes *)
Fixpoint min_len (r : regex) : nat :=
  match r with
  | Lit w => length w
  | Rep _ lo _ => lo
  | Group r1 => min_len r1
  | Seq r1 r2 => min_len r1 + min_len r2
  end.

End Re.
Import Re.

(** ** [RomaYemekScraper._clean_markdown] *)

(** [r'\n{3,}'] *)
Definition blank_lines_re : regex := Rep is_nl 3 true.

(** [r'Skip to content.*?Biz Evde Yokuz'] with [re.DOTALL] *)
Definition skip_text : pystr := py "Skip to content".
Definition anchor_text : pystr := py "Biz Evde Yokuz".
Definition boilerplate_re : regex :=
  Seq (Lit skip_text) (Seq (Rep any_char 0 false) (Lit anchor_text)).

Definition collapse_blank_lines (s : pystr) : pystr :=
  sub blank_lines_re [NL; NL] s.

Definition remove_boilerplate (s : pystr) : pystr :=
  sub boilerplate_re anchor_text s.

Definition _clean_markdown (markdown_content : pystr) : pystr :=
  let markdown_content := collapse_blank_lines markdown_content in
  let markdown_content := strip markdown_content in
  let markdown_content := remove_boilerplate markdown_content in
  markdown_content.

(** ** Python values, exceptions and effects *)

Module Py.

(** The values [json.loads] produces and the dictionaries the program
    builds.  A [float] keeps the literal it was read from. *)
#[local] Unset Elimination Schemes.
Inductive pyval :=
| PNone
| PBool (b : bool)
| PInt (z : Z)
| PFloat (literal : pystr)
| PStr (s : pystr)
| PList (l : list pyval)
| PDict (d : list (pystr * pyval)).
#[local] Set Elimination Schemes.

Definition dict := list (pystr * pyval).

(** [d[k]] when present *)
Fixpoint dict_get (k : pystr) (d : dict) : option pyval :=
  match d with
  | [] => None
  | (k', v) :: d' => if str_eqb k k' then Some v else dict_get k d'
  end.

(** [k in d] *)
Definition dict_in (k : pystr) (d : dict) : bool :=
  match dict_get k d with Some _ => true | None => false end.

(** [d[k] = v]: an existing key keeps its position, a new one goes last *)
Fixpoint dict_set (k : pystr) (v : pyval) (d : dict) : dict :=
  match d with
  | [] => [(k, v)]
  | (k', v') :: d' =>
    if str_eqb k k' then (k', v) :: d' else (k', v') :: dict_set k v d'
  end.

(** The exception classes the program meets.  All derive from
    [Exception], so [except Exception] catches each of them; what the
    interpreter raises on its own account ([KeyboardInterrupt],
    [SystemExit]) is not an outcome of a call here. *)
Inductive exn_class :=
| ConnectionError | Timeout | HTTPError
| MissingSchema | InvalidSchema | InvalidURL | InvalidProxyURL
| OpenAIError | JSONDecodeError | TypeError | KeyError | OtherException.

Record exn := Exn { exn_cls : exn_class; exn_msg : pystr }.

(** [str(e)] *)
Definition str_exn (e : exn) : pystr := exn_msg e.

Inductive level := INFO | WARNING | ERROR.

(** An HTTP GET as [requests.get] receives it. *)
Record get_request := GetRequest {
  get_url : pystr;
  get_headers : list (pystr * pystr);
  get_proxies : option (list (pystr * pystr));
  get_timeout : Z
}.

(** [requests.get] either raises or returns a response. *)
Inductive get_outcome :=
| GetRaises (e : exn)
| GetResponse (status_code : Z) (reason : pystr) (text : pystr).

(** A call of [client.chat.completions.create]. *)
Record chat_request := ChatRequest {
  chat_model : pystr;
  chat_system : pystr;
  chat_user : pystr;
  chat_temperature : pystr;
  chat_max_tokens : Z;
  chat_top_p : pystr;
  chat_frequency_penalty : Z;
  chat_presence_penalty : Z
}.

(** The call raises, or returns [response.choices[0].message.content]. *)
Inductive chat_outcome :=
| ChatRaises (e : exn)
| ChatReply (content : pystr).

(** What leaves the process, in order. *)
Inductive event :=
| EvLog (l : level) (msg : pystr)
| EvGet (rq : get_request)
| EvChat (rq : chat_request)
| EvWrite (path : pystr) (content : pystr)
| EvPrint (text : pystr).

Definition trace := list event.

(** The collaborators outside the repository. *)
Record world := World {
  requests_get : get_request -> get_outcome;
  (** [str(soup.select_one("article"))] once the noise elements are
      decomposed, when the page has an article *)
  soup_article : pystr -> option pystr;
  (** [str(soup.body or soup)] once the noise elements are decomposed *)
  soup_body : pystr -> pystr;
  (** [markdownify(markup, heading_style="ATX")] *)
  md : pystr -> pystr;
  chat_completions_create : chat_request -> chat_outcome;
  (** [json.dumps(value, ensure_ascii=False, indent=2)] *)
  json_dumps : pyval -> pystr;
  (** [str(value)] for a value that is not a string *)
  builtin_str : pyval -> pystr
}.

(** A computation returns or raises, and emits events. *)
Inductive res (A : Type) :=
| Ok (a : A)
| Raise (e : exn).
Arguments Ok {A} a.
Arguments Raise {A} e.

Definition M (A : Type) : Type := res A * trace.

Definition ret {A} (a : A) : M A := (Ok a, []).

Definition bind {A B} (m : M A) (f : A -> M B) : M B :=
  match m with
  | (Ok a, t) => let (r, t') := f a in (r, t ++ t')
  | (Raise e, t) => (Raise e, t)
  end.

Definition raise {A} (e : exn) : M A := (Raise e, []).

Definition emit (ev : event) : M unit := (Ok tt, [ev]).

(** [try: m  except <classes selected by catches> as e: handler e] *)
Definition try_except {A} (m : M A) (catches : exn -> bool)
           (handler : exn -> M A) : M A :=
  match m with
  | (Ok a, t) => (Ok a, t)
  | (Raise e, t) =>
    if catches e then let (r, t') := handler e in (r, t ++ t')
    else (Raise e, t)
  end.

(** [except Exception] *)
Definition is_Exception (_ : exn) : bool := true.

(** [except json.JSONDecodeError] *)
Definition is_JSONDecodeError (e : exn) : bool :=
  match exn_cls e with JSONDecodeError => true | _ => false end.

Definition logger (l : level) (msg : pystr) : M unit := emit (EvLog l msg).

(** [str(n)] for an integer length *)
Definition str_nat (n : nat) : pystr :=
  py (NilEmpty.string_of_uint (N.to_uint (N.of_nat n))).

End Py.
Import Py.

Declare Scope py_scope.
Delimit Scope py_scope with py.
Notation "x <- m ;; k" := (bind m (fun x => k))
  (at level 61, m at next level, right associativity) : py_scope.
Notation "m ;;; k" := (bind m (fun _ => k))
  (at level 61, right associativity) : py_scope.
Open Scope py_scope.

(** ** [json.loads]

    The decoder of the standard library (the scanner of [json.scanner],
    [scanstring] in strict mode, and the object and array loops of
    [json.decoder]) on a [str].  [None] stands for [JSONDecodeError].
    The limits of the interpreter (recursion depth, digits of an
    integer) are left out. *)

Module Json.

Definition is_digit (c : char) : bool := ((48 <=? c) && (c <=? 57))%N.

(** [WHITESPACE_STR = ' \t\n\r'] *)
Definition json_ws (c : char) : bool :=
  ((c =? 32) || (c =? 9) || (c =? 10) || (c =? 13))%N.

Fixpoint skip_ws (s : pystr) : pystr :=
  match s with
  | c :: s' => if json_ws c then skip_ws s' else s
  | [] => []
  end.

Fixpoint span_digits (s : pystr) : pystr * pystr :=
  match s with
  | c :: s' =>
    if is_digit c then let (d, r) := span_digits s' in (c :: d, r)
    else ([], s)
  | [] => ([], [])
  end.

Definition hex_val (c : char) : option N :=
  if ((48 <=? c) && (c <=? 57))%N then Some (c - 48)%N
  else if ((97 <=? c) && (c <=? 102))%N then Some (c - 87)%N
  else if ((65 <=? c) && (c <=? 70))%N then Some (c - 55)%N
  else None.

Definition hex4 (a b c d : char) : option N :=
  match hex_val a, hex_val b, hex_val c, hex_val d with
  | Some x, Some y, Some z, Some w => Some (((x * 16 + y) * 16 + z) * 16 + w)%N
  | _, _, _, _ => None
  end.

Definition is_high_surrogate (u : N) : bool := ((55296 <=? u) && (u <=? 56319))%N.
Definition is_low_surrogate (u : N) : bool := ((56320 <=? u) && (u <=? 57343))%N.
Definition join_surrogates (hi lo : N) : N :=
  (65536 + (N.shiftl (hi - 55296) 10 + (lo - 56320)))%N.

(** the [BACKSLASH] table *)
Definition unescape (c : char) : option char :=
  if (c =? 34)%N then Some 34%N            (* quote *)
  else if (c =? 92)%N then Some 92%N       (* backslash *)
  else if (c =? 47)%N then Some 47%N       (* slash *)
  else if (c =? 98)%N then Some 8%N        (* b: backspace *)
  else if (c =? 102)%N then Some 12%N      (* f: form feed *)
  else if (c =? 110)%N then Some 10%N      (* n: newline *)
  else if (c =? 114)%N then Some 13%N      (* r: carriage return *)
  else if (c =? 116)%N then Some 9%N       (* t: tab *)
  else None.

(** [scanstring(s, end, strict=True)] from just after the opening quote;
    [acc] holds the decoded characters in reverse. *)
Fixpoint scanstring (s : pystr) (acc : pystr) : option (pystr * pystr) :=
  match s with
  | [] => None                                   (* unterminated string *)
  | c :: s1 =>
    if (c =? 34)%N then Some (rev acc, s1)
    else if (c =? 92)%N then
      match s1 with
      | [] => None
      | e :: s2 =>
        if (e =? 117)%N then
          match s2 with
          | h1 :: h2 :: h3 :: h4 :: s3 =>
            match hex4 h1 h2 h3 h4 with
            | None => None                       (* invalid \uXXXX escape *)
            | Some u =>
              if is_high_surrogate u then
                match s3 with
                | b :: v :: g1 :: g2 :: g3 :: g4 :: ((_ :: _) as s4) =>
                  if ((b =? 92) && (v =? 117))%N then
                    match hex4 g1 g2 g3 g4 with
                    | None => None
                    | Some u2 =>
                      if is_low_surrogate u2
                      then scanstring s4 (join_surrogates u u2 :: acc)
                      else scanstring s3 (u :: acc)
                    end
                  else scanstring s3 (u :: acc)
                | _ => scanstring s3 (u :: acc)
                end
              else scanstring s3 (u :: acc)
            end
          | _ => None
          end
        else
          match unescape e with
          | Some c' => scanstring s2 (c' :: acc)
          | None => None                         (* invalid \escape *)
          end
      end
    else if (c <=? 31)%N then None               (* invalid control character *)
    else scanstring s1 (c :: acc)
  end.

(** the decimal value of a run of digits *)
Definition digits_value (d : pystr) : Z :=
  fold_left (fun a c => (a * 10 + Z.of_N (c - 48))%Z) d 0%Z.

(** [match_number]: an optional minus sign; a zero, or a non-zero digit
    followed by digits; optionally a dot and one or more digits;
    optionally [e] or [E], an optional sign and one or more digits. *)
Definition number_sign (s : pystr) : bool * pystr :=
  match s with
  | c :: r => if (c =? 45)%N then (true, r) else (false, s)
  | [] => (false, s)
  end.

Definition number_int (s : pystr) : option (pystr * pystr) :=
  match s with
  | c :: r =>
    if (c =? 48)%N then Some ([c], r)
    else if is_digit c then let (d, r') := span_digits r in Some (c :: d, r')
    else None
  | [] => None
  end.

Definition number_frac (s : pystr) : pystr * pystr :=
  match s with
  | p :: d :: r =>
    if ((p =? 46)%N && is_digit d)%bool
    then let (ds, r') := span_digits r in (p :: d :: ds, r')
    else ([], s)
  | _ => ([], s)
  end.

Definition number_exp (s : pystr) : pystr * pystr :=
  match s with
  | e :: r =>
    if ((e =? 101) || (e =? 69))%N then
      let '(sign, r') :=
        match r with
        | sg :: ((_ :: _) as r'') =>
          if ((sg =? 45) || (sg =? 43))%N then ([sg], r'') else ([], r)
        | _ => ([], r)
        end in
      match span_digits r' with
      | ([], _) => ([], s)                       (* no digit: no exponent *)
      | (ds, r'') => (e :: sign ++ ds, r'')
      end
    else ([], s)
  | [] => ([], s)
  end.

Definition match_number (s : pystr) : option (pyval * pystr) :=
  let (neg, s1) := number_sign s in
  match number_int s1 with
  | None => None
  | Some (ds, r1) =>
    let (frac, r2) := number_frac r1 in
    let (expo, r3) := number_exp r2 in
    match frac, expo with
    | [], [] =>
      Some (PInt (if neg then - digits_value ds else digits_value ds)%Z, r3)
    | _, _ =>
      Some (PFloat ((if neg then [45%N] else []) ++ ds ++ frac ++ expo), r3)
    end
  end.

(** [dict(pairs)]: a repeated key keeps its first position and its last
    value *)
Definition dict_of_pairs (pairs : list (pystr * pyval)) : dict :=
  fold_left (fun d kv => dict_set (fst kv) (snd kv) d) pairs [].

Inductive parsed :=
| Parsed (v : pyval) (rest : pystr)
| Invalid                    (* JSONDecodeError *)
| Unfinished.                (* more rounds needed *)

(** [scan_once], and the loops of [JSONObject] and [JSONArray] entered
    just before a member and just before an element; [acc] holds what
    was read so far, in reverse. *)
Fixpoint scan_once (n : nat) (s : pystr) {struct n} : parsed :=
  match n with
  | O => Unfinished
  | S n' =>
    match s with
    | [] => Invalid                              (* expecting value *)
    | c :: s1 =>
      if (c =? 34)%N then
        match scanstring s1 [] with
        | Some (str, r) => Parsed (PStr str) r
        | None => Invalid
        end
      else if (c =? 123)%N then
        match skip_ws s1 with
        | c' :: r =>
          if (c' =? 125)%N then Parsed (PDict []) r else parse_members n' (c' :: r) []
        | [] => Invalid
        end
      else if (c =? 91)%N then
        match skip_ws s1 with
        | c' :: r =>
          if (c' =? 93)%N then Parsed (PList []) r else parse_elements n' (c' :: r) []
        | [] => Invalid
        end
      else
        match strip_prefix (py "null") s, strip_prefix (py "true") s,
              strip_prefix (py "false") s, strip_prefix (py "NaN") s,
              strip_prefix (py "Infinity") s, strip_prefix (py "-Infinity") s with
        | Some r, _, _, _, _, _ => Parsed PNone r
        | _, Some r, _, _, _, _ => Parsed (PBool true) r
        | _, _, Some r, _, _, _ => Parsed (PBool false) r
        | _, _, _, Some r, _, _ => Parsed (PFloat (py "NaN")) r
        | _, _, _, _, Some r, _ => Parsed (PFloat (py "Infinity")) r
        | _, _, _, _, _, Some r => Parsed (PFloat (py "-Infinity")) r
        | _, _, _, _, _, _ =>
          match match_number s with
          | Some (v, r) => Parsed v r
          | None => Invalid
          end
        end
    end
  end

with parse_members (n : nat) (s : pystr) (acc : list (pystr * pyval))
     {struct n} : parsed :=
  match n with
  | O => Unfinished
  | S n' =>
    match s with
    | q :: s1 =>
      if (q =? 34)%N then
        match scanstring s1 [] with
        | None => Invalid
        | Some (key, r1) =>
          match skip_ws r1 with
          | colon :: r2 =>
            if (colon =? 58)%N then
              match scan_once n' (skip_ws r2) with
              | Parsed v r3 =>
                match skip_ws r3 with
                | d :: r4 =>
                  if (d =? 125)%N then
                    Parsed (PDict (dict_of_pairs (rev ((key, v) :: acc)))) r4
                  else if (d =? 44)%N then
                    parse_members n' (skip_ws r4) ((key, v) :: acc)
                  else Invalid                   (* expecting ',' delimiter *)
                | [] => Invalid
                end
              | other => other
              end
            else Invalid                         (* expecting ':' delimiter *)
          | [] => Invalid
          end
        end
      else Invalid                               (* expecting property name *)
    | [] => Invalid
    end
  end

with parse_elements (n : nat) (s : pystr) (acc : list pyval)
     {struct n} : parsed :=
  match n with
  | O => Unfinished
  | S n' =>
    match scan_once n' s with
    | Parsed v r1 =>
      match skip_ws r1 with
      | d :: r2 =>
        if (d =? 93)%N then Parsed (PList (rev (v :: acc))) r2
        else if (d =? 44)%N then parse_elements n' (skip_ws r2) (v :: acc)
        else Invalid                             (* expecting ',' delimiter *)
      | [] => Invalid
      end
    | other => other
    end
  end.

(** Every round is preceded by a consumed character, so twice the
    length of the text is enough (lemma [scan_once_finishes]). *)
Definition rounds (s : pystr) : nat := 2 * length s + 2.

(** [json.loads(s)] *)
Definition loads (s : pystr) : option pyval :=
  match s with
  | 65279%N :: _ => None                         (* unexpected UTF-8 BOM *)
  | _ =>
    match scan_once (rounds s) (skip_ws s) with
    | Parsed v rest =>
      match skip_ws rest with
      | [] => Some v
      | _ :: _ => None                           (* extra data *)
      end
    | _ => None
    end
  end.

End Json.

(** ** [class RomaYemekScraper] *)

Record RomaYemekScraper := Scraper {
  openai_api_key : pystr;
  proxy : option pystr;
  user_agent : pystr;
  timeout : Z
}.

Definition quoted (s : string) : pystr := [DQ] ++ py s ++ [DQ].

Definition default_user_agent : pystr :=
  py "Mozilla/5.0 (Windows NT 10.0; Win64; x64) AppleWebKit/537.36 (KHTML, like Gecko) Chrome/91.0.4472.124 Safari/537.36".

(** truth value of an optional string: [None] and the empty string are false *)
Definition truthy_opt (s : option pystr) : bool :=
  match s with
  | Some (_ :: _) => true
  | _ => false
  end.

Definition __init__ (openai_api_key : pystr) (proxy user_agent : option pystr)
           (timeout : Z) : M RomaYemekScraper :=
  let self :=
    {| openai_api_key := openai_api_key;
       proxy := proxy;
       user_agent := match user_agent with
                     | Some (c :: u) => c :: u
                     | _ => default_user_agent
                     end;
       timeout := timeout |} in
  logger INFO (py "Roma Yemek Scraper başlatıldı") ;;;
  ret self.

(** *** [scrape_with_requests] *)

Definition str_int (z : Z) : pystr := py (NilEmpty.string_of_int (Z.to_int z)).

(** [requests.get(url, headers=..., proxies=..., timeout=...)] *)
Record response := Response {
  status_code : Z;
  reason : pystr;
  text : pystr
}.

Definition call_get (w : world) (rq : get_request) : M response :=
  match requests_get w rq with
  | GetRaises e => (Raise e, [EvGet rq])
  | GetResponse status_code reason text =>
    (Ok (Response status_code reason text), [EvGet rq])
  end.

(** [response.raise_for_status()]: [HTTPError] for a 4xx or 5xx status *)
Definition raise_for_status (url : pystr) (r : response) : M unit :=
  if ((400 <=? status_code r) && (status_code r <? 500))%Z then
    raise (Exn HTTPError (str_int (status_code r) ++ py " Client Error: "
                          ++ reason r ++ py " for url: " ++ url))
  else if ((500 <=? status_code r) && (status_code r <? 600))%Z then
    raise (Exn HTTPError (str_int (status_code r) ++ py " Server Error: "
                          ++ reason r ++ py " for url: " ++ url))
  else ret tt.

Definition request_headers (self : RomaYemekScraper) : list (pystr * pystr) :=
  [ (py "User-Agent", user_agent self);
    (py "Accept", py "text/html,application/xhtml+xml,application/xml;q=0.9,image/webp,*/*;q=0.8");
    (py "Accept-Language", py "tr,en-US;q=0.7,en;q=0.3");
    (py "Connection", py "keep-alive");
    (py "Upgrade-Insecure-Requests", py "1");
    (py "Cache-Control", py "max-age=0") ].

Definition request_proxies (self : RomaYemekScraper)
  : option (list (pystr * pystr)) :=
  match proxy self with
  | Some (c :: p) => Some [ (py "http", c :: p); (py "https", c :: p) ]
  | _ => None
  end.

(** the GET the method issues for [url] *)
Definition request_for (self : RomaYemekScraper) (url : pystr) : get_request :=
  GetRequest url (request_headers self) (request_proxies self) (timeout self).

Definition scrape_with_requests (w : world) (self : RomaYemekScraper)
           (url : pystr) : M pystr :=
  logger INFO (py "Requests ile scraping başlatılıyor: " ++ url) ;;;
  let headers := request_headers self in
  let proxies := request_proxies self in
  try_except
    (response <- call_get w (GetRequest url headers proxies (timeout self)) ;;
     raise_for_status url response ;;;
     logger INFO (py "Sayfa başarıyla yüklendi: " ++ url) ;;;
     ret (text response))
    is_Exception
    (fun e =>
       logger ERROR (py "Scraping hatası: " ++ str_exn e) ;;;
       ret []).

(** *** [html_to_markdown] *)

Definition html_to_markdown (w : world) (html_content : pystr) : M pystr :=
  content <-
    match soup_article w html_content with
    | Some article => ret article
    | None =>
      logger WARNING (py "Article seçicisiyle içerik bulunamadı, tüm body kullanılıyor") ;;;
      ret (soup_body w html_content)
    end ;;
  let markdown_content := md w content in
  let markdown_content := _clean_markdown markdown_content in
  logger INFO (py "HTML içeriği Markdown'a dönüştürüldü ("
               ++ str_nat (length markdown_content) ++ py " karakter)") ;;;
  ret markdown_content.

(** *** [process_with_openai] *)

Definition max_chars : Z := 15000.

Definition truncation_notice : pystr :=
  [NL; NL] ++ py "[İçerik çok uzun olduğu için kısaltıldı]".

Definition prompt_template : pystr :=
  concat (map (fun l => l ++ [NL]) [
    [];
    py "        Bu içerik Roma'daki yemek rehberi hakkında bilgiler içeriyor. Lütfen aşağıdaki bilgileri çıkar ve JSON formatında yanıt ver:";
    py "        ";
    py "        1. Roma'da denenmesi gereken en önemli yemekler ve tatlılar nelerdir?";
    py "        2. Her yemek için en iyi restoranlar hangileridir? (Adres ve iletişim bilgileriyle)";
    py "        3. Roma mutfağının genel özellikleri nelerdir?";
    py "        ";
    py "        Yanıtını şu formatta yapılandır:";
    py "        {";
    py "          " ++ quoted "roma_mutfagi_ozellikleri" ++ py ": " ++ quoted "..." ++ py ",";
    py "          " ++ quoted "yemekler" ++ py ": [";
    py "            {";
    py "              " ++ quoted "isim" ++ py ": " ++ quoted "Yemek adı" ++ py ",";
    py "              " ++ quoted "aciklama" ++ py ": " ++ quoted "Yemek hakkında kısa açıklama" ++ py ",";
    py "              " ++ quoted "en_iyi_restoranlar" ++ py ": [";
    py "                {";
    py "                  " ++ quoted "isim" ++ py ": " ++ quoted "Restoran adı" ++ py ",";
    py "                  " ++ quoted "adres" ++ py ": " ++ quoted "Adres" ++ py ",";
    py "                  " ++ quoted "iletisim" ++ py ": " ++ quoted "Telefon veya web sitesi";
    py "                }";
    py "              ]";
    py "            }";
    py "          ]";
    py "        }";
    py "        ";
    py "        İşlenecek içerik:";
    py "        "
  ]) ++ py "        ".

(** [r'```json\s*([\s\S]*?)\s*```'] *)
Definition fence_open : pystr := py "```json".
Definition fence_close : pystr := py "```".
Definition space_or_not (c : char) : bool := isspace c || negb (isspace c).
Definition fence_re : regex :=
  Seq (Lit fence_open)
      (Seq (Rep isspace 0 true)
           (Seq (Group (Rep space_or_not 0 false))
                (Seq (Rep isspace 0 true) (Lit fence_close)))).

(** the arguments of the completion call for a prompt *)
Definition completion_request (prompt : pystr) : chat_request :=
  {| chat_model := py "gpt-3.5-turbo-16k";
     chat_system := py "Sen bir yemek ve seyahat uzmanısın. Verilen içerikten yapılandırılmış bilgi çıkarabilirsin.";
     chat_user := prompt;
     chat_temperature := py "0.2";
     chat_max_tokens := 4000;
     chat_top_p := py "0.95";
     chat_frequency_penalty := 0;
     chat_presence_penalty := 0 |}.

(** [client.chat.completions.create(...)] *)
Definition call_chat (w : world) (rq : chat_request) : M pystr :=
  match chat_completions_create w rq with
  | ChatRaises e => (Raise e, [EvChat rq])
  | ChatReply content => (Ok content, [EvChat rq])
  end.

(** [json.loads(s)] as a step that may raise *)
Definition json_loads (s : pystr) : M pyval :=
  match Json.loads s with
  | Some v => ret v
  | None => raise (Exn JSONDecodeError (py "Expecting value"))
  end.

(** the text handed to [json.loads]: group 1 of the fenced block when
    the reply has one, the reply otherwise *)
Definition parse_candidate (result_text : pystr) : pystr :=
  match search fence_re result_text with
  | Some json_match =>
    match group1 json_match with
    | Some inner => inner
    | None => result_text
    end
  | None => result_text
  end.

(** the dictionary returned for a reply that is not JSON *)
Definition text_result (result_text : pystr) : pyval :=
  PDict [ (py "error", PBool false);
          (py "text_response", PStr result_text);
          (py "format", PStr (py "text")) ].

(** the dictionary returned when the completion call fails *)
Definition error_result (message : pystr) : pyval :=
  PDict [ (py "error", PBool true);
          (py "error_message", PStr message) ].

Definition process_with_openai (w : world) (self : RomaYemekScraper)
           (markdown_content : pystr) : M pyval :=
  logger INFO (py "OpenAI API ile içerik işleniyor") ;;;
  markdown_content <-
    (if (len markdown_content >? max_chars)%Z then
       logger WARNING (py "İçerik çok uzun, kısaltılıyor") ;;;
       ret (slice_to max_chars markdown_content ++ truncation_notice)
     else ret markdown_content) ;;
  let prompt := prompt_template in
  let prompt := prompt ++ markdown_content in
  try_except
    (response <- call_chat w (completion_request prompt) ;;
     (* the assignments of the inner [try] cannot raise JSONDecodeError;
        [result_text] is what the handler sees when [json.loads] does *)
     let result_text := response in
     let result_text := parse_candidate result_text in
     result <-
       try_except
         (result <- json_loads result_text ;;
          logger INFO (py "OpenAI API yanıtı başarıyla JSON'a dönüştürüldü") ;;;
          ret result)
         is_JSONDecodeError
         (fun _ =>
            logger WARNING (py "OpenAI API yanıtı JSON formatında değil, metin olarak döndürülüyor") ;;;
            ret (text_result result_text)) ;;
     ret result)
    is_Exception
    (fun e =>
       logger ERROR (py "OpenAI API hatası: " ++ str_exn e) ;;;
       ret (error_result (str_exn e))).

(** *** [scrape_and_process_roma_yemek] *)

Definition scrape_and_process_roma_yemek (w : world) (self : RomaYemekScraper)
           (url : pystr) : M dict :=
  let results :=
    [ (py "url", PStr url);
      (py "title", PStr (py "Roma'da Ne Nerede Yenir"));
      (py "processed", PBool false);
      (py "openai_result", PDict []) ] in
  logger INFO (py "Roma yemek rehberi scraping başlatılıyor: " ++ url) ;;;
  html_content <- scrape_with_requests w self url ;;
  match html_content with
  | [] =>
    logger ERROR (py "İçerik çekilemedi: " ++ url) ;;;
    ret results
  | _ :: _ =>
    markdown_content <- html_to_markdown w html_content ;;
    openai_result <- process_with_openai w self markdown_content ;;
    let results := dict_set (py "openai_result") openai_result results in
    let results := dict_set (py "processed") (PBool true) results in
    logger INFO (py "Roma yemek rehberi işlendi.") ;;;
    ret results
  end.

(** ** [main] *)

(** truth value of a Python value *)
Definition truthy (v : pyval) : bool :=
  match v with
  | PNone => false
  | PBool b => b
  | PInt z => negb (z =? 0)%Z
  | PFloat _ => true
  | PStr s => match s with [] => false | _ => true end
  | PList l => match l with [] => false | _ => true end
  | PDict d => match d with [] => false | _ => true end
  end.

(** [k in v] for a string [k] *)
Definition py_in (k : pystr) (v : pyval) : M bool :=
  match v with
  | PDict d => ret (dict_in k d)
  | PList l =>
    ret (existsb (fun x => match x with PStr s => str_eqb s k | _ => false end) l)
  | PStr s => ret (contains k s)
  | _ => raise (Exn TypeError (py "argument is not iterable"))
  end.

(** [v[k]] for a string [k] *)
Definition py_getitem (v : pyval) (k : pystr) : M pyval :=
  match v with
  | PDict d =>
    match dict_get k d with
    | Some x => ret x
    | None => raise (Exn KeyError k)
    end
  | _ => raise (Exn TypeError (py "indices must be integers"))
  end.

(** the text an f-string puts in for [{v}] *)
Definition format_value (w : world) (v : pyval) : pystr :=
  match v with
  | PStr s => s
  | _ => builtin_str w v
  end.

Definition print (text : pystr) : M unit := emit (EvPrint text).

(** the literals of [main] and the scraper its constructor call builds *)
Definition roma_yemek_url : pystr :=
  py "https://www.bizevdeyokuz.com/roma-ne-nerede-yenir".

Definition main_scraper : RomaYemekScraper :=
  Scraper (py "open_api_keyiniz") None default_user_agent 30.

Definition main (w : world) : M unit :=
  let openai_api_key := py "open_api_keyiniz" in
  let roma_yemek_url := roma_yemek_url in
  scraper <- __init__ openai_api_key None None 30 ;;
  results <- scrape_and_process_roma_yemek w scraper roma_yemek_url ;;
  emit (EvWrite (py "roma_yemek_rehberi.json") (json_dumps w (PDict results))) ;;;
  logger INFO (py "Sonuçlar kaydedildi: roma_yemek_rehberi.json") ;;;
  processed <- py_getitem (PDict results) (py "processed") ;;
  openai_result <- py_getitem (PDict results) (py "openai_result") ;;
  has_error <- (if truthy processed then py_in (py "error") openai_result
                else ret true) ;;
  if truthy processed && negb has_error then
    print ([NL; NL] ++ py "=== ROMA YEMEK REHBERİ ÖZETİ ===" ++ [NL]) ;;;
    print (json_dumps w openai_result)
  else
    print ([NL; NL] ++ py "Hata: Roma yemek rehberi işlenemedi.") ;;;
    has_message <- py_in (py "error_message") openai_result ;;
    if has_message then
      message <- py_getitem openai_result (py "error_message") ;;
      print (py "Hata mesajı: " ++ format_value w message)
    else ret tt.

(** ** Observing a run *)

(** the prompt of the user message: the template, then the document,
    cut to [max_chars] characters and marked when it is longer *)
Definition prompt_for (markdown_content : pystr) : pystr :=
  prompt_template ++
  (if (len markdown_content >? max_chars)%Z
   then slice_to max_chars markdown_content ++ truncation_notice
   else markdown_content).

(** the completion calls issued during a run, in order *)
Definition chat_calls (t : trace) : list chat_request :=
  flat_map (fun ev => match ev with EvChat rq => [rq] | _ => [] end) t.

(** the user messages sent to the completion service *)
Definition sent_prompts (t : trace) : list pystr := map chat_user (chat_calls t).

(** what [print] wrote, one entry per call *)
Definition printed (t : trace) : list pystr :=
  flat_map (fun ev => match ev with EvPrint s => [s] | _ => [] end) t.

(** ** The result variants of the specification

    [Failed{message}] is the dictionary the program builds for a failed
    completion call.  [spec_structured] follows the words of the
    specification for a successful parse: the fields of the schema are
    read from the parsed object, a missing one defaults to the empty
    string or the empty sequence, anything else is dropped. *)

Definition Failed (message : pystr) : pyval := error_result message.






(** ** Test doubles *)

(** a world whose page and completion service answer as given; the
    markup conversion is the identity *)
Definition stub_world (page : get_outcome) (reply : chat_outcome) : world :=
  {| requests_get := fun _ => page;
     soup_article := fun html => Some html;
     soup_body := fun html => html;
     md := fun markup => markup;
     chat_completions_create := fun _ => reply;
     json_dumps := fun _ => [];
     builtin_str := fun _ => [] |}.

Definition stub_scraper : RomaYemekScraper :=
  Scraper (py "key") None default_user_agent 30.

Definition stub_url : pystr := py "https://example.org/roma".

Definition page_ok : get_outcome :=
  GetResponse 200 (py "OK") (py "<article>Carbonara</article>").

Definition page_unreachable : get_outcome :=
  GetRaises (Exn ConnectionError (py "connection refused")).

(** a reply in prose; a fenced block whose content is not JSON; a bare
    JSON object with a field outside the schema *)
Definition reply_prose : pystr := py "no json here".

Definition reply_fenced_prose : pystr :=
  py "```json" ++ [NL] ++ py "not json" ++ [NL] ++ py "```".

Definition reply_object : pystr := py "{" ++ quoted "a" ++ py ":1}".

Definition long_text : pystr := repeat 97%N (Z.to_nat 15001).

(** ** What the specification asks of a normalised text *)

(** no three consecutive newline characters anywhere *)
Definition triple_newline_free (s : pystr) : Prop :=
  forall u v, s <> u ++ [NL; NL; NL] ++ v.

(** neither the first nor the last character is whitespace *)
Definition trimmed (s : pystr) : Prop :=
  (forall c t, s = c :: t -> isspace c = false) /\
  (forall c t, s = t ++ [c] -> isspace c = false).

Definition all_space (s : pystr) : Prop := Forall (fun c => isspace c = true) s.



(** the lazy [.*?Biz Evde Yokuz] part of the boilerplate pattern: the
    text after the first anchor at or after the current position *)
Definition scan_anchor (s : pystr) : option (option pystr * pystr) :=
  star_lazy any_char s
    (fun t => match strip_prefix anchor_text t with
              | Some r => Some (None, r)
              | None => None
              end).

(** ** Further observations and auxiliary notions *)

(** [a] is obtained from [b] by deleting characters *)
Inductive subsequence : pystr -> pystr -> Prop :=
| subseq_nil : subsequence [] []
| subseq_keep c a b : subsequence a b -> subsequence (c :: a) (c :: b)
| subseq_drop c a b : subsequence a b -> subsequence a (c :: b).

(** the characters of a text other than newlines, in order *)
Definition without_newlines (s : pystr) : pystr :=
  filter (fun c => negb (is_nl c)) s.

(** the GET requests issued during a run, in order *)
Definition get_calls (t : trace) : list get_request :=
  flat_map (fun ev => match ev with EvGet rq => [rq] | _ => [] end) t.

(** the files written during a run: path and content *)
Definition written (t : trace) : list (pystr * pystr) :=
  flat_map (fun ev => match ev with EvWrite f c => [(f, c)] | _ => [] end) t.

(** the messages logged at [ERROR] and at [WARNING] level *)
Definition error_logs (t : trace) : list pystr :=
  flat_map (fun ev => match ev with EvLog ERROR m => [m] | _ => [] end) t.

Definition warning_logs (t : trace) : list pystr :=
  flat_map (fun ev => match ev with EvLog WARNING m => [m] | _ => [] end) t.

(** the character of which fences are made *)
Definition backtick : char := 96%N.

(** the tail of the fence pattern, [\s*```], after group 1 was read *)
Definition close_fence (g : option pystr) (t : pystr)
  : option (option pystr * pystr) :=
  star_greedy isspace t
    (fun t' => match strip_prefix fence_close t' with
               | Some r => Some (g, r)
               | None => None
               end).

(** the lazy group of the fence pattern followed by its tail *)
Definition fence_body (t : pystr) : option (option pystr * pystr) :=
  star_lazy space_or_not t
    (fun t' => close_fence (Some (firstn (length t - length t') t)) t').

(** the statements of [main] that follow the call of the pipeline *)
Definition main_report (w : world) (results : dict) : M unit :=
  emit (EvWrite (py "roma_yemek_rehberi.json") (json_dumps w (PDict results))) ;;;
  logger INFO (py "Sonuçlar kaydedildi: roma_yemek_rehberi.json") ;;;
  processed <- py_getitem (PDict results) (py "processed") ;;
  openai_result <- py_getitem (PDict results) (py "openai_result") ;;
  has_error <- (if truthy processed then py_in (py "error") openai_result
                else ret true) ;;
  if truthy processed && negb has_error then
    print ([NL; NL] ++ py "=== ROMA YEMEK REHBERİ ÖZETİ ===" ++ [NL]) ;;;
    print (json_dumps w openai_result)
  else
    print ([NL; NL] ++ py "Hata: Roma yemek rehberi işlenemedi.") ;;;
    has_message <- py_in (py "error_message") openai_result ;;
    if has_message then
      message <- py_getitem openai_result (py "error_message") ;;
      print (py "Hata mesajı: " ++ format_value w message)
    else ret tt.

(** the two branches that end [main], for the values read from the
    result dictionary *)
Definition main_print (w : world) (processed : bool) (openai_result : pyval)
  : M unit :=
  has_error <- (if processed then py_in (py "error") openai_result
                else ret true) ;;
  if processed && negb has_error then
    print ([NL; NL] ++ py "=== ROMA YEMEK REHBERİ ÖZETİ ===" ++ [NL]) ;;;
    print (json_dumps w openai_result)
  else
    print ([NL; NL] ++ py "Hata: Roma yemek rehberi işlenemedi.") ;;;
    has_message <- py_in (py "error_message") openai_result ;;
    if has_message then
      message <- py_getitem openai_result (py "error_message") ;;
      print (py "Hata mesajı: " ++ format_value w message)
    else ret tt.


(** the result dictionary of a run that fetched a page *)
Definition processed_results (url : pystr) (openai_result : pyval) : dict :=
  [ (py "url", PStr url);
    (py "title", PStr (py "Roma'da Ne Nerede Yenir"));
    (py "processed", PBool true);
    (py "openai_result", openai_result) ].



Definition result_file : pystr := py "roma_yemek_rehberi.json".

(* ================================================================= *)
(** * Properties *)

(** ** Strings *)

Lemma strip_prefix_Some w s r : strip_prefix w s = Some r <-> s = w ++ r.
Proof.
  revert s; induction w as [|a w IH]; intros s; simpl.
  - split; congruence.
  - destruct s as [|b s]; [split; discriminate|].
    destruct (N.eqb_spec a b) as [->|Hab].
    + rewrite IH. split; congruence.
    + split; congruence.
Qed.

Lemma strip_prefix_app w r : strip_prefix w (w ++ r) = Some r.
Proof. now apply strip_prefix_Some. Qed.

(** ** The matcher *)

Section MatcherFacts.
Variable A : Type.

Lemma consume_split cls n s r :
  consume cls n s = Some r -> exists m, s = m ++ r /\ length m = n.
Proof.
  revert s; induction n as [|n IH]; intros s; simpl.
  - intros [= ->]. now exists [].
  - destruct s as [|c s]; [discriminate|].
    destruct (cls c); [|discriminate].
    intros H. destruct (IH _ H) as (m & -> & Hm).
    exists (c :: m). simpl. auto.
Qed.

Lemma star_greedy_split cls s (k : pystr -> option A) a :
  star_greedy cls s k = Some a -> exists m t, s = m ++ t /\ k t = Some a.
Proof.
  induction s as [|c s IH]; simpl.
  - intros H. now exists [], [].
  - destruct (cls c).
    + destruct (star_greedy cls s k) as [a'|] eqn:E.
      * intros [= ->]. destruct (IH eq_refl) as (m & t & -> & Hk).
        now exists (c :: m), t.
      * intros H. now exists [], (c :: s).
    + intros H. now exists [], (c :: s).
Qed.

Lemma star_lazy_split cls s (k : pystr -> option A) a :
  star_lazy cls s k = Some a -> exists m t, s = m ++ t /\ k t = Some a.
Proof.
  induction s as [|c s IH]; simpl.
  - destruct (k []) eqn:E; [|discriminate].
    intros [= ->]. now exists [], [].
  - destruct (k (c :: s)) eqn:E.
    + intros [= ->]. now exists [], (c :: s).
    + destruct (cls c); [|discriminate].
      intros H. destruct (IH H) as (m & t & -> & Hk).
      now exists (c :: m), t.
Qed.

Lemma rmatch_split r : forall s g (k : pystr -> option pystr -> option A) a,
  rmatch r s g k = Some a ->
  exists m t g', s = m ++ t /\ k t g' = Some a /\ min_len r <= length m.
Proof.
  induction r as [w|cls lo greedy|r IH|r1 IH1 r2 IH2]; intros s g k a; simpl.
  - destruct (strip_prefix w s) as [s'|] eqn:E; [|discriminate].
    apply strip_prefix_Some in E. intros H. exists w, s', g. auto.
  - destruct (consume cls lo s) as [s'|] eqn:E; [|discriminate].
    destruct (consume_split _ _ _ E) as (m & -> & Hm).
    destruct greedy; intros H;
      [apply star_greedy_split in H | apply star_lazy_split in H];
      destruct H as (m' & t & -> & Hk);
      exists (m ++ m'), t, g; rewrite <- app_assoc, length_app;
      (split; [reflexivity | split; [assumption | lia]]).
  - intros H. apply IH in H. destruct H as (m & t & g' & -> & Hk & Hm).
    eauto 6.
  - intros H. apply IH1 in H. destruct H as (m1 & t1 & g1 & -> & Hk & Hm1).
    apply IH2 in Hk. destruct Hk as (m2 & t2 & g2 & -> & Hk & Hm2).
    exists (m1 ++ m2), t2, g2. rewrite <- app_assoc, length_app.
    split; [reflexivity | split; [assumption | lia]].
Qed.
End MatcherFacts.

Lemma match_here_split r s g rest :
  match_here r s = Some (g, rest) ->
  exists m, s = m ++ rest /\ min_len r <= length m.
Proof.
  unfold match_here. intros H. apply rmatch_split in H.
  destruct H as (m & t & g' & -> & [= -> ->] & Hm). eauto.
Qed.

(** [search] returns the leftmost position at which the pattern matches. *)
Lemma search_Some r s f :
  search r s = Some f ->
  exists m, s = before f ++ m ++ after f /\ min_len r <= length m
    /\ match_here r (m ++ after f) = Some (group1 f, after f)
    /\ forall u v, before f = u ++ v -> v <> [] ->
         match_here r (v ++ m ++ after f) = None.
Proof.
  revert f; induction s as [|c s IH]; intros f; simpl.
  - destruct (match_here r []) as [[g rest]|] eqn:E; [|discriminate].
    intros [= <-]. simpl. destruct (match_here_split _ _ E) as (m & Hs & Hm).
    exists m. rewrite <- Hs. repeat split; auto.
    intros [|] v; simpl; [intros <-; congruence | discriminate].
  - destruct (match_here r (c :: s)) as [[g rest]|] eqn:E.
    + intros [= <-]. simpl. destruct (match_here_split _ _ E) as (m & Hs & Hm).
      exists m. rewrite <- Hs. repeat split; auto.
      intros [|] v; simpl; [intros <-; congruence | discriminate].
    + destruct (search r s) as [f'|] eqn:E'; [|discriminate].
      intros [= <-]. simpl.
      destruct (IH _ eq_refl) as (m & Hs & Hm & Hh & Hb).
      exists m. repeat split; auto.
      * now rewrite Hs at 1.
      * intros [|x u] v; simpl.
        -- intros <- _. simpl. now rewrite <- Hs.
        -- intros [= <- Hv] Hne. now apply (Hb u v).
Qed.

Lemma search_None_cons r c s :
  search r (c :: s) = None <-> match_here r (c :: s) = None /\ search r s = None.
Proof.
  simpl. destruct (match_here r (c :: s)) as [[g rest]|].
  - split; [discriminate | intros [? _]; discriminate].
  - destruct (search r s); split; try discriminate; auto.
    intros [_ ?]; discriminate.
Qed.

Lemma search_None_nil r : search r [] = None <-> match_here r [] = None.
Proof.
  simpl. destruct (match_here r []) as [[g rest]|]; split; congruence.
Qed.

Lemma search_None r s :
  search r s = None <-> forall u v, s = u ++ v -> match_here r v = None.
Proof.
  induction s as [|c s IH].
  - rewrite search_None_nil. split.
    + intros H u v Huv. symmetry in Huv. apply app_eq_nil in Huv.
      destruct Huv as [_ ->]. exact H.
    + intros H. now apply (H [] []).
  - rewrite search_None_cons, IH. split.
    + intros [H1 H2] [|x u] v; simpl.
      * now intros <-.
      * intros [= <- Hs]. now apply (H2 u).
    + intros H. split.
      * now apply (H []).
      * intros u v ->. now apply (H (c :: u)).
Qed.

Lemma search_shorter r s f :
  search r s = Some f -> min_len r + length (after f) <= length s.
Proof.
  intros H. destruct (search_Some _ _ H) as (m & -> & Hm & _).
  rewrite !length_app. lia.
Qed.

Lemma sub_rounds_enough r repl :
  0 < min_len r ->
  forall n m s, length s <= n -> length s <= m ->
    sub_rounds n r repl s = sub_rounds m r repl s.
Proof.
  intros Hr.
  assert (Hnil : forall n, sub_rounds n r repl [] = []).
  { intros [|n]; cbn [sub_rounds]; [reflexivity|].
    destruct (search r []) as [f|] eqn:E; [|reflexivity].
    apply search_shorter in E. simpl in E. lia. }
  induction n as [|n IH]; intros m s Hn Hm.
  - destruct s; [|simpl in Hn; lia]. now rewrite !Hnil.
  - destruct m as [|m].
    + destruct s; [|simpl in Hm; lia]. now rewrite !Hnil.
    + cbn [sub_rounds]. destruct (search r s) as [f|] eqn:E; [|reflexivity].
      apply search_shorter in E.
      rewrite (IH m); [reflexivity | lia | lia].
Qed.

(** The defining equation of [re.sub]: no round is ever missing. *)
Lemma sub_unfold r repl s :
  0 < min_len r ->
  sub r repl s =
  match search r s with
  | Some f => before f ++ repl ++ sub r repl (after f)
  | None => s
  end.
Proof.
  intros Hr. unfold sub. destruct (search r s) as [f|] eqn:E.
  - pose proof (search_shorter _ _ E) as Hlen.
    destruct (length s) as [|n] eqn:El; [lia|].
    cbn [sub_rounds]. rewrite E.
    rewrite (@sub_rounds_enough r repl Hr n (length (after f)));
      [reflexivity | lia | lia].
  - destruct (length s); cbn [sub_rounds]; [reflexivity | now rewrite E].
Qed.

Lemma sub_no_match r repl s : search r s = None -> sub r repl s = s.
Proof.
  intros H. unfold sub. destruct (length s); cbn [sub_rounds]; [reflexivity|].
  now rewrite H.
Qed.

(** ** [str.strip] *)

Lemma lstrip_split s :
  exists ws, s = ws ++ lstrip s /\ all_space ws.
Proof.
  induction s as [|c s (ws & Hs & Hws)]; simpl.
  - exists []. split; [reflexivity | constructor].
  - destruct (isspace c) eqn:E.
    + exists (c :: ws). split; [simpl; congruence | now constructor].
    + exists []. split; [reflexivity | constructor].
Qed.

Lemma lstrip_head s c t : lstrip s = c :: t -> isspace c = false.
Proof.
  induction s as [|x s IH]; simpl; [discriminate|].
  destruct (isspace x) eqn:E; [assumption|].
  now intros [= <- _].
Qed.

Lemma lstrip_space_app ws s : all_space ws -> lstrip (ws ++ s) = lstrip s.
Proof.
  induction 1 as [|c ws Hc _ IH]; simpl; [reflexivity|].
  now rewrite Hc.
Qed.

Lemma lstrip_fixed s :
  (forall c t, s = c :: t -> isspace c = false) -> lstrip s = s.
Proof.
  destruct s as [|c s]; simpl; [reflexivity|].
  intros H. now rewrite (H c s eq_refl).
Qed.

Lemma all_space_rev ws : all_space ws -> all_space (rev ws).
Proof. apply Forall_rev. Qed.

Lemma rstrip_split s :
  exists ws, s = rstrip s ++ ws /\ all_space ws.
Proof.
  unfold rstrip. destruct (lstrip_split (rev s)) as (ws & Hs & Hws).
  exists (rev ws). split; [|now apply all_space_rev].
  rewrite <- rev_app_distr, <- Hs. now rewrite rev_involutive.
Qed.

Lemma rstrip_last s c t : rstrip s = t ++ [c] -> isspace c = false.
Proof.
  unfold rstrip. intros H. apply (f_equal (@rev _)) in H.
  rewrite rev_involutive, rev_app_distr in H. simpl in H.
  now apply lstrip_head in H.
Qed.

Lemma rstrip_space_app s ws : all_space ws -> rstrip (s ++ ws) = rstrip s.
Proof.
  intros H. unfold rstrip. rewrite rev_app_distr.
  now rewrite lstrip_space_app by now apply all_space_rev.
Qed.

Lemma rstrip_fixed s :
  (forall c t, s = t ++ [c] -> isspace c = false) -> rstrip s = s.
Proof.
  intros H. unfold rstrip. rewrite lstrip_fixed; [apply rev_involutive|].
  intros c t Ht. apply (H c (rev t)).
  rewrite <- (rev_involutive s), Ht. reflexivity.
Qed.

Lemma strip_split s :
  exists ws1 ws2, s = ws1 ++ strip s ++ ws2 /\ all_space ws1 /\ all_space ws2.
Proof.
  unfold strip. destruct (lstrip_split s) as (ws1 & H1 & Hws1).
  destruct (rstrip_split (lstrip s)) as (ws2 & H2 & Hws2).
  exists ws1, ws2. rewrite <- H2. auto.
Qed.

Lemma strip_trimmed s : trimmed (strip s).
Proof.
  unfold strip. split.
  - intros c t H.
    destruct (rstrip_split (lstrip s)) as (ws & Hs & _).
    rewrite H in Hs. simpl in Hs. now apply lstrip_head in Hs.
  - intros c t H. now apply rstrip_last in H.
Qed.

Lemma strip_fixed ws1 t ws2 :
  trimmed t -> all_space ws1 -> all_space ws2 -> strip (ws1 ++ t ++ ws2) = t.
Proof.
  intros [Hh Hl] H1 H2. unfold strip.
  rewrite lstrip_space_app by assumption.
  destruct t as [|c t].
  - simpl. destruct (lstrip_split ws2) as (ws & Hs & Hws).
    destruct (lstrip ws2) as [|x r] eqn:E; [reflexivity|].
    exfalso. apply lstrip_head in E.
    unfold all_space in H2. rewrite Hs in H2. apply Forall_app in H2.
    destruct H2 as [_ H2]. inversion H2; congruence.
  - rewrite lstrip_fixed.
    + rewrite rstrip_space_app by assumption. now apply rstrip_fixed.
    + intros x r [= <- _]. now apply (Hh c t).
Qed.

Lemma strip_id t : trimmed t -> strip t = t.
Proof.
  intros Ht. pose proof (@strip_fixed [] t [] Ht) as E.
  cbn [app] in E. rewrite app_nil_r in E. apply E; constructor.
Qed.

(** ** The blank-line pattern *)

Lemma is_nl_true c : is_nl c = true <-> c = NL.
Proof. apply N.eqb_eq. Qed.

Lemma star_greedy_nl (B : Type) (f : pystr -> B) s :
  exists t, star_greedy is_nl s (fun t => Some (f t)) = Some (f t)
            /\ forall r, t <> NL :: r.
Proof.
  induction s as [|c s (t & Ht & Hr)]; simpl.
  - exists []. split; [reflexivity | discriminate].
  - destruct (is_nl c) eqn:E.
    + rewrite Ht. now exists t.
    + exists (c :: s). split; [reflexivity|].
      intros r [= -> _]. discriminate.
Qed.

Lemma blank_here s :
  match_here blank_lines_re s =
  match s with
  | a :: b :: c :: t =>
    if is_nl a && is_nl b && is_nl c
    then star_greedy is_nl t (fun t => Some (None, t)) else None
  | _ => None
  end.
Proof.
  unfold match_here, blank_lines_re. simpl.
  destruct s as [|a [|b [|c t]]]; simpl; try reflexivity;
    destruct (is_nl a); simpl; try reflexivity;
    destruct (is_nl b); simpl; try reflexivity;
    destruct (is_nl c); reflexivity.
Qed.

Lemma blank_here_None s :
  match_here blank_lines_re s = None <-> firstn 3 s <> [NL; NL; NL].
Proof.
  rewrite blank_here. destruct s as [|a [|b [|c t]]]; simpl;
    try (split; [discriminate | reflexivity]).
  destruct (is_nl a) eqn:Ea; simpl;
    [destruct (is_nl b) eqn:Eb; simpl; [destruct (is_nl c) eqn:Ec; simpl|]|].
  - destruct (star_greedy_nl (fun t => (@None pystr, t)) t) as (r & -> & _).
    apply is_nl_true in Ea, Eb, Ec. subst.
    split; [discriminate | congruence].
  - split; [|reflexivity]. intros _ [= _ _ ->]. discriminate.
  - split; [|reflexivity]. intros _ [= _ -> _]. discriminate.
  - split; [|reflexivity]. intros _ [= -> _ _]. discriminate.
Qed.

Lemma blank_here_Some s g rest :
  match_here blank_lines_re s = Some (g, rest) ->
  firstn 3 s = [NL; NL; NL] /\ forall r, rest <> NL :: r.
Proof.
  intros H. split.
  - destruct (list_eq_dec N.eq_dec (firstn 3 s) [NL; NL; NL]) as [E|E];
      [assumption|]. apply blank_here_None in E. congruence.
  - rewrite blank_here in H. destruct s as [|a [|b [|c t]]]; try discriminate.
    destruct (is_nl a && is_nl b && is_nl c); [|discriminate].
    destruct (star_greedy_nl (fun t => (@None pystr, t)) t) as (r & Hr & Hnl).
    rewrite Hr in H. injection H as _ <-. exact Hnl.
Qed.

(** A text is free of triple newlines exactly when the pattern is found
    nowhere in it. *)
Lemma free_search s :
  triple_newline_free s <-> search blank_lines_re s = None.
Proof.
  rewrite search_None. unfold triple_newline_free. split.
  - intros H u v ->. apply blank_here_None. intros E.
    apply (H u (skipn 3 v)). f_equal.
    rewrite <- E. symmetry. apply firstn_skipn.
  - intros H u v E. specialize (H u _ E).
    apply blank_here_None in H. now apply H.
Qed.

Lemma free_infix a s b :
  triple_newline_free (a ++ s ++ b) -> triple_newline_free s.
Proof.
  intros H u v ->. apply (H (a ++ u) (v ++ b)).
  now rewrite <- !app_assoc.
Qed.

(** Joining two clean texts around a non-empty text without newlines
    creates no triple newline. *)
Lemma search_blank_skip m y :
  Forall (fun c => c <> NL) m ->
  search blank_lines_re y = None -> search blank_lines_re (m ++ y) = None.
Proof.
  induction 1 as [|c m Hc _ IH]; intros Hy; simpl app; [assumption|].
  apply search_None_cons. split; [|now apply IH].
  apply blank_here_None. simpl. congruence.
Qed.

Lemma free_join x c m y :
  c <> NL -> Forall (fun c => c <> NL) m ->
  triple_newline_free x -> triple_newline_free y ->
  triple_newline_free (x ++ (c :: m) ++ y).
Proof.
  intros Hc Hm Hx Hy. rewrite free_search in *.
  induction x as [|a x IH].
  - apply (@search_blank_skip (c :: m)); [now constructor | assumption].
  - apply search_None_cons in Hx. destruct Hx as [Ha Hx].
    simpl app. apply search_None_cons. split; [|now apply IH].
    apply blank_here_None. apply blank_here_None in Ha.
    destruct x as [|b [|d x]]; simpl in *; congruence.
Qed.

(** ** Collapsing blank lines *)

Lemma blank_min : 0 < min_len blank_lines_re.
Proof. simpl. lia. Qed.

Lemma collapse_unfold s :
  collapse_blank_lines s =
  match search blank_lines_re s with
  | Some f => before f ++ [NL; NL] ++ collapse_blank_lines (after f)
  | None => s
  end.
Proof. apply sub_unfold, blank_min. Qed.

Lemma collapse_head s :
  (forall r, s <> NL :: r) -> forall r, collapse_blank_lines s <> NL :: r.
Proof.
  intros Hs r. rewrite collapse_unfold.
  destruct (search blank_lines_re s) as [f|] eqn:E; [|apply Hs].
  destruct (search_Some _ _ E) as (m & Heq & _ & Hm & _).
  apply blank_here_Some in Hm. destruct Hm as [Hm _].
  destruct (before f) as [|c b].
  - simpl in Heq. rewrite <- Heq in Hm. exfalso.
    destruct s as [|x s]; [discriminate|].
    simpl in Hm. injection Hm as -> _. now apply (Hs s).
  - simpl. intros [= -> _]. now apply (Hs (b ++ m ++ after f)).
Qed.

Lemma search_blank_replaced b M Y :
  firstn 3 M = [NL; NL; NL] ->
  (forall u v, b = u ++ v -> v <> [] -> firstn 3 (v ++ M) <> [NL; NL; NL]) ->
  search blank_lines_re Y = None -> (forall r, Y <> NL :: r) ->
  search blank_lines_re (b ++ NL :: NL :: Y) = None.
Proof.
  intros HM Hb HY Hhd. induction b as [|a b IH].
  - simpl. apply search_None_cons. split.
    + apply blank_here_None. destruct Y as [|y Y]; simpl; [discriminate|].
      intros [= ->]. now apply (Hhd Y).
    + apply search_None_cons. split; [|assumption].
      apply blank_here_None. destruct Y as [|y [|z Y]]; simpl; try discriminate.
      intros [= -> _]. now apply (Hhd (z :: Y)).
  - simpl app. apply search_None_cons. split.
    + apply blank_here_None.
      assert (Ha := Hb [] (a :: b) eq_refl ltac:(discriminate)).
      destruct M as [|m1 [|m2 [|m3 M]]]; try discriminate.
      injection HM as -> -> ->.
      destruct b as [|x [|y b]]; simpl in *; congruence.
    + apply IH. intros u v -> Hv. now apply (Hb (a :: u) v).
Qed.

Lemma collapse_free s : triple_newline_free (collapse_blank_lines s).
Proof.
  remember (length s) as n eqn:Hn. revert s Hn.
  induction n as [n IH] using lt_wf_ind. intros s ->.
  rewrite collapse_unfold.
  destruct (search blank_lines_re s) as [f|] eqn:E.
  - pose proof (search_shorter _ _ E) as Hlen. simpl in Hlen.
    destruct (search_Some _ _ E) as (m & Heq & _ & Hm & Hb).
    apply blank_here_Some in Hm. destruct Hm as [Hm Hr].
    apply free_search. apply (@search_blank_replaced _ (m ++ after f)).
    + assumption.
    + intros u v Huv Hv. apply blank_here_None. now apply (Hb u v).
    + apply free_search. apply (IH (length (after f))); [lia | reflexivity].
    + now apply collapse_head.
  - now apply free_search.
Qed.

(** ** The boilerplate pattern *)

Lemma skip_text_chars :
  skip_text = [83; 107; 105; 112; 32; 116; 111; 32; 99; 111; 110; 116; 101; 110; 116]%N.
Proof. reflexivity. Qed.

Lemma anchor_text_chars :
  anchor_text = [66; 105; 122; 32; 69; 118; 100; 101; 32; 89; 111; 107; 117; 122]%N.
Proof. reflexivity. Qed.

Lemma boilerplate_min : 0 < min_len boilerplate_re.
Proof. cbn [min_len boilerplate_re]. rewrite skip_text_chars. simpl. lia. Qed.

Lemma boilerplate_here s :
  match_here boilerplate_re s =
  match strip_prefix skip_text s with
  | Some s1 => scan_anchor s1
  | None => None
  end.
Proof.
  unfold match_here, boilerplate_re, scan_anchor. cbn [rmatch consume].
  destruct (strip_prefix skip_text s); reflexivity.
Qed.

Lemma boilerplate_unfold s :
  remove_boilerplate s =
  match search boilerplate_re s with
  | Some f => before f ++ anchor_text ++ remove_boilerplate (after f)
  | None => s
  end.
Proof. apply sub_unfold, boilerplate_min. Qed.

(** A match cannot start at a character other than [S]. *)
Lemma boilerplate_here_head c s :
  c <> 83%N -> match_here boilerplate_re (c :: s) = None.
Proof.
  intros Hc. rewrite boilerplate_here, skip_text_chars.
  cbn [strip_prefix]. destruct (N.eqb_spec 83 c); [congruence | reflexivity].
Qed.


Lemma scan_anchor_found u v : scan_anchor (u ++ anchor_text ++ v) <> None.
Proof.
  unfold scan_anchor. induction u as [|c u IH].
  - destruct (anchor_text ++ v) eqn:E; cbn [app star_lazy];
      rewrite <- E, strip_prefix_app; discriminate.
  - cbn [app star_lazy any_char].
    destruct (strip_prefix anchor_text (c :: u ++ anchor_text ++ v));
      [discriminate | exact IH].
Qed.



Lemma anchor_text_last : anchor_text = removelast anchor_text ++ [122%N].
Proof. reflexivity. Qed.


Lemma search_cons r c s :
  search r (c :: s) =
  match match_here r (c :: s) with
  | Some (g, rest) => Some (Found [] g rest)
  | None =>
    match search r s with
    | Some f => Some (Found (c :: before f) (group1 f) (after f))
    | None => None
    end
  end.
Proof. reflexivity. Qed.








Lemma scan_anchor_Some s g rest :
  scan_anchor s = Some (g, rest) -> exists p, s = p ++ anchor_text ++ rest.
Proof.
  unfold scan_anchor. intros H. apply star_lazy_split in H.
  destruct H as (p & t & -> & Hk).
  destruct (strip_prefix anchor_text t) as [r|] eqn:E; [|discriminate].
  injection Hk as _ ->. apply strip_prefix_Some in E. subst t. now exists p.
Qed.

Lemma boilerplate_here_Some s g rest :
  match_here boilerplate_re s = Some (g, rest) ->
  exists p, s = skip_text ++ p ++ anchor_text ++ rest.
Proof.
  rewrite boilerplate_here.
  destruct (strip_prefix skip_text s) as [s1|] eqn:E; [|discriminate].
  apply strip_prefix_Some in E. subst s. intros H.
  apply scan_anchor_Some in H. destruct H as (p & ->). now exists p.
Qed.

(** the text kept before, and the text kept after, every replaced span *)
Lemma search_boilerplate_Some s f :
  search boilerplate_re s = Some f ->
  exists p, s = before f ++ skip_text ++ p ++ anchor_text ++ after f
    /\ forall u v, before f = u ++ v -> v <> [] ->
         match_here boilerplate_re
           (v ++ skip_text ++ p ++ anchor_text ++ after f) = None.
Proof.
  intros H. destruct (search_Some _ _ H) as (m & Hs & _ & Hm & Hb).
  destruct (boilerplate_here_Some _ Hm) as (p & Hp).
  exists p. rewrite <- Hp. auto.
Qed.

Lemma remove_boilerplate_free t :
  triple_newline_free t -> triple_newline_free (remove_boilerplate t).
Proof.
  remember (length t) as n eqn:Hn. revert t Hn.
  induction n as [n IH] using lt_wf_ind. intros t -> Ht.
  rewrite boilerplate_unfold.
  destruct (search boilerplate_re t) as [f|] eqn:E; [|assumption].
  pose proof (search_shorter _ _ E) as Hlen. pose proof boilerplate_min.
  destruct (search_boilerplate_Some _ E) as (p & Hs & _).
  rewrite anchor_text_chars. apply free_join.
  - discriminate.
  - repeat constructor; discriminate.
  - apply (@free_infix [] _ (skip_text ++ p ++ anchor_text ++ after f)).
    cbn [app]. now rewrite <- Hs.
  - apply (IH (length (after f))); [lia | reflexivity |].
    apply (@free_infix (before f ++ skip_text ++ p ++ anchor_text) _ []).
    rewrite app_nil_r, <- !app_assoc. now rewrite <- Hs.
Qed.

Lemma remove_boilerplate_head t :
  (forall c r, t = c :: r -> isspace c = false) ->
  forall c r, remove_boilerplate t = c :: r -> isspace c = false.
Proof.
  intros Ht c r. rewrite boilerplate_unfold.
  destruct (search boilerplate_re t) as [f|] eqn:E; [|apply Ht].
  destruct (search_boilerplate_Some _ E) as (p & Hs & _).
  destruct (before f) as [|x b].
  - rewrite anchor_text_chars. cbn [app]. now intros [= <- _].
  - cbn [app] in *. intros [= <- _]. now apply (Ht x _ Hs).
Qed.

Lemma remove_boilerplate_last t :
  (forall c r, t = r ++ [c] -> isspace c = false) ->
  forall c r, remove_boilerplate t = r ++ [c] -> isspace c = false.
Proof.
  remember (length t) as n eqn:Hn. revert t Hn.
  induction n as [n IH] using lt_wf_ind. intros t -> Ht c r.
  rewrite boilerplate_unfold.
  destruct (search boilerplate_re t) as [f|] eqn:E; [|apply Ht].
  pose proof (search_shorter _ _ E) as Hlen. pose proof boilerplate_min.
  destruct (search_boilerplate_Some _ E) as (p & Hs & _).
  assert (Hcase : remove_boilerplate (after f) = []
                  \/ exists z' z, remove_boilerplate (after f) = z' ++ [z]).
  { destruct (remove_boilerplate (after f)) as [|z0 Z]; [now left | right].
    destruct (@exists_last _ (z0 :: Z)) as (z' & z & Hz); [discriminate|].
    now exists z', z. }
  destruct Hcase as [Hz|(z' & z & Hz)].
  - rewrite Hz, app_nil_r, anchor_text_last, app_assoc.
    intros Heq. apply app_inj_tail in Heq. destruct Heq as [_ <-]. reflexivity.
  - rewrite Hz, !app_assoc. intros Heq. apply app_inj_tail in Heq.
    destruct Heq as [_ <-].
    apply (IH (length (after f))) with (t := after f) (r := z');
      [lia | reflexivity | | assumption].
    intros c' r' Ha. apply (Ht c' (before f ++ skip_text ++ p ++ anchor_text ++ r')).
    rewrite Hs at 1. rewrite Ha. now rewrite <- !app_assoc.
Qed.

Lemma remove_boilerplate_trimmed t : trimmed t -> trimmed (remove_boilerplate t).
Proof.
  intros [Hh Hl]. split.
  - now apply remove_boilerplate_head.
  - now apply remove_boilerplate_last.
Qed.

(** A second pass finds nothing to remove. *)
Lemma prefix_without (w : pystr) (c : char) : ~ In c w ->
  forall x y s1, x ++ c :: y = w ++ s1 -> exists x', x = w ++ x'.
Proof.
  intros Hc. induction w as [|d w IH]; intros x y s1 H.
  - now exists x.
  - destruct x as [|e x]; cbn [app] in H.
    + injection H as -> _. exfalso. apply Hc. now left.
    + injection H as -> H. destruct (IH (fun Hi => Hc (or_intror Hi)) _ _ _ H) as (x' & ->).
      now exists x'.
Qed.

Lemma search_boilerplate_skip m y :
  Forall (fun c => c <> 83%N) m ->
  search boilerplate_re y = None -> search boilerplate_re (m ++ y) = None.
Proof.
  induction 1 as [|c m Hc _ IH]; intros Hy; cbn [app]; [assumption|].
  apply search_None_cons. split; [|now apply IH].
  now apply boilerplate_here_head.
Qed.

Lemma search_boilerplate_replaced b p q Y :
  (forall u v, b = u ++ v -> v <> [] ->
     match_here boilerplate_re (v ++ skip_text ++ p ++ anchor_text ++ q) = None) ->
  search boilerplate_re Y = None ->
  search boilerplate_re (b ++ anchor_text ++ Y) = None.
Proof.
  intros Hb HY. induction b as [|a b IH].
  - cbn [app]. apply search_boilerplate_skip; [|assumption].
    rewrite anchor_text_chars. repeat constructor; discriminate.
  - cbn [app]. apply search_None_cons. split.
    + rewrite boilerplate_here.
      destruct (strip_prefix skip_text (a :: b ++ anchor_text ++ Y)) as [s1|] eqn:E;
        [exfalso | reflexivity].
      apply strip_prefix_Some in E.
      rewrite anchor_text_chars in E at 1. cbn [app] in E.
      assert (Hnot : ~ In 66%N skip_text).
      { rewrite skip_text_chars. cbn [In]. intros H.
        repeat (destruct H as [H|H]; [discriminate|]). exact H. }
      destruct (@prefix_without skip_text 66%N Hnot (a :: b) _ s1 E) as (b' & Eb).
      pose proof (Hb [] (a :: b) eq_refl ltac:(discriminate)) as Hn.
      rewrite Eb, boilerplate_here, <- app_assoc, strip_prefix_app in Hn.
      revert Hn.
      replace (b' ++ skip_text ++ p ++ anchor_text ++ q)
        with ((b' ++ skip_text ++ p) ++ anchor_text ++ q)
        by now rewrite <- !app_assoc.
      apply scan_anchor_found.
    + apply IH. intros u v -> Hv. now apply (Hb (a :: u) v).
Qed.

Lemma remove_boilerplate_settled t :
  search boilerplate_re (remove_boilerplate t) = None.
Proof.
  remember (length t) as n eqn:Hn. revert t Hn.
  induction n as [n IH] using lt_wf_ind. intros t ->.
  rewrite boilerplate_unfold.
  destruct (search boilerplate_re t) as [f|] eqn:E; [|assumption].
  pose proof (search_shorter _ _ E) as Hlen. pose proof boilerplate_min.
  destruct (search_boilerplate_Some _ E) as (p & _ & Hb).
  apply (@search_boilerplate_replaced _ p (after f)); [assumption|].
  apply (IH (length (after f))); [lia | reflexivity].
Qed.

(** ** The normaliser *)

Lemma clean_markdown_free s : triple_newline_free (_clean_markdown s).
Proof.
  unfold _clean_markdown. apply remove_boilerplate_free.
  destruct (strip_split (collapse_blank_lines s)) as (ws1 & ws2 & Hs & _).
  apply (@free_infix ws1 _ ws2). rewrite <- Hs. apply collapse_free.
Qed.

Lemma clean_markdown_trimmed s : trimmed (_clean_markdown s).
Proof.
  unfold _clean_markdown. apply remove_boilerplate_trimmed, strip_trimmed.
Qed.

(** C4: whatever the input, the text [_clean_markdown] returns holds no
    three consecutive newline characters, and neither its first nor its
    last character is whitespace. *)
Theorem clean_markdown_invariant (markdown_content : pystr) :
  (forall u v, _clean_markdown markdown_content <> u ++ [NL; NL; NL] ++ v)
  /\ (forall c t, _clean_markdown markdown_content = c :: t -> isspace c = false)
  /\ (forall c t, _clean_markdown markdown_content = t ++ [c] -> isspace c = false).
Proof.
  split.
  - apply clean_markdown_free.
  - apply clean_markdown_trimmed.
Qed.

Lemma clean_markdown_invariant_witness :
  isspace 97%N = false /\ isspace 98%N = false.
Proof.
  destruct (clean_markdown_invariant
              (py "  a" ++ [NL; NL; NL; NL] ++ py "b  ")) as (_ & Hfirst & Hlast).
  split.
  - apply (Hfirst 97%N ([NL; NL] ++ py "b")). vm_compute. reflexivity.
  - apply (Hlast 98%N (py "a" ++ [NL; NL])). vm_compute. reflexivity.
Defined.


(** C9: normalising an already normalised text changes nothing. *)
Theorem clean_markdown_idempotent (x : pystr) :
  _clean_markdown (_clean_markdown x) = _clean_markdown x.
Proof.
  pose proof (clean_markdown_free x) as Hfree.
  pose proof (clean_markdown_trimmed x) as Htrim.
  unfold _clean_markdown at 1.
  unfold collapse_blank_lines.
  rewrite sub_no_match by now apply free_search.
  rewrite (strip_id Htrim).
  unfold remove_boilerplate at 1. apply sub_no_match.
  unfold _clean_markdown. apply remove_boilerplate_settled.
Qed.

(** ** Running the effectful code *)

Ltac run :=
  unfold logger, print, emit, ret, raise;
  cbn [bind try_except fst snd app is_Exception
       status_code reason text exn_cls exn_msg str_exn].

(** ** [scrape_with_requests] *)

(** C10: for every url the method returns a string and raises nothing:
    the empty string when [requests.get] raises (transport errors, a
    malformed URL, an invalid proxy) or when the status makes
    [raise_for_status] raise, the response body otherwise, in particular
    for every 2xx status. *)
Theorem scrape_with_requests_total (w : world) (self : RomaYemekScraper)
        (url : pystr) :
  fst (scrape_with_requests w self url)
  = Ok (match requests_get w (request_for self url) with
        | GetRaises _ => []
        | GetResponse status_code _ text =>
          if ((400 <=? status_code) && (status_code <? 600))%Z then [] else text
        end).
Proof.
  unfold scrape_with_requests, request_for, call_get.
  destruct (requests_get w _) as [e|sc rs body].
  - reflexivity.
  - unfold raise_for_status. run.
    destruct (Z.leb_spec 400 sc); destruct (Z.ltb_spec sc 500);
      destruct (Z.leb_spec 500 sc); destruct (Z.ltb_spec sc 600);
      try reflexivity; lia.
Qed.

(** ** [process_with_openai] *)

(** What the method returns: the error dictionary when the call raises,
    the decoded value when the candidate is JSON, the text dictionary
    otherwise. *)
Lemma process_with_openai_result (w : world) (self : RomaYemekScraper)
      (markdown_content : pystr) :
  fst (process_with_openai w self markdown_content)
  = Ok (match chat_completions_create w
                (completion_request (prompt_for markdown_content)) with
        | ChatRaises e => error_result (str_exn e)
        | ChatReply reply =>
          match Json.loads (parse_candidate reply) with
          | Some v => v
          | None => text_result (parse_candidate reply)
          end
        end).
Proof.
  unfold process_with_openai, prompt_for, call_chat, json_loads.
  destruct (len markdown_content >? max_chars)%Z; run;
    destruct (chat_completions_create w _) as [e|reply]; run;
    try reflexivity;
    destruct (Json.loads (parse_candidate reply)); reflexivity.
Qed.

(** Exactly one completion call is issued, with the prompt built from
    the document. *)
Lemma process_with_openai_prompts (w : world) (self : RomaYemekScraper)
      (markdown_content : pystr) :
  sent_prompts (snd (process_with_openai w self markdown_content))
  = [prompt_for markdown_content].
Proof.
  unfold process_with_openai, prompt_for, call_chat, json_loads.
  destruct (len markdown_content >? max_chars)%Z; run;
    destruct (chat_completions_create w _) as [e|reply]; run;
    try reflexivity;
    destruct (Json.loads (parse_candidate reply)); reflexivity.
Qed.

(** C3: the prompt sent to the model is the template followed by a
    document; when the text is longer than [max_chars] the document is
    its first [max_chars] characters followed by the truncation notice,
    so its length is [max_chars] plus the length of the notice; a text of
    at most [max_chars] characters is the document itself. *)
Theorem prompt_document_truncated (w : world) (self : RomaYemekScraper)
        (text : pystr) :
  exists document,
    sent_prompts (snd (process_with_openai w self text))
    = [prompt_template ++ document]
    /\ ((len text > max_chars)%Z ->
        document = firstn (Z.to_nat max_chars) text ++ truncation_notice
        /\ len document = (max_chars + len truncation_notice)%Z)
    /\ ((len text <= max_chars)%Z -> document = text).
Proof.
  rewrite process_with_openai_prompts. unfold prompt_for.
  eexists. split; [reflexivity|].
  rewrite Z.gtb_ltb. destruct (Z.ltb_spec max_chars (len text)) as [Hlong|Hshort].
  - split; [|lia]. intros _. split; [reflexivity|].
    unfold slice_to, len in *. rewrite length_app, length_firstn.
    unfold max_chars in *. lia.
  - split; [lia | reflexivity].
Qed.

Lemma prompt_document_truncated_witness :
  (exists document,
      sent_prompts (snd (process_with_openai
                           (stub_world page_ok (ChatReply reply_prose))
                           stub_scraper long_text))
      = [prompt_template ++ document]
      /\ len document = (max_chars + len truncation_notice)%Z)
  /\ (exists document,
      sent_prompts (snd (process_with_openai
                           (stub_world page_ok (ChatReply reply_prose))
                           stub_scraper (py "Carbonara")))
      = [prompt_template ++ document]
      /\ document = py "Carbonara").
Proof.
  split.
  - destruct (prompt_document_truncated
                (stub_world page_ok (ChatReply reply_prose))
                stub_scraper long_text) as (document & Hsent & Hlong & _).
    exists document. split; [exact Hsent|].
    apply Hlong. vm_compute. reflexivity.
  - destruct (prompt_document_truncated
                (stub_world page_ok (ChatReply reply_prose))
                stub_scraper (py "Carbonara")) as (document & Hsent & _ & Hshort).
    exists document. split; [exact Hsent|].
    apply Hshort. vm_compute. discriminate.
Defined.

(** C8, as the code has it: the prompt sent to the model is never longer
    than [max_chars] plus the length of the truncation notice plus the
    length of the instruction template. *)
Theorem prompt_length_bound (w : world) (self : RomaYemekScraper)
        (text : pystr) :
  exists prompt,
    sent_prompts (snd (process_with_openai w self text)) = [prompt]
    /\ (len prompt <= max_chars + len truncation_notice + len prompt_template)%Z.
Proof.
  rewrite process_with_openai_prompts. eexists. split; [reflexivity|].
  unfold prompt_for, len. rewrite length_app.
  rewrite Z.gtb_ltb.
  destruct (Z.ltb_spec max_chars (Z.of_nat (length text))) as [Hlong|Hshort].
  - unfold slice_to. rewrite length_app, length_firstn.
    unfold max_chars in *. lia.
  - lia.
Qed.

(** C8 as stated fails: a text of 15001 characters gives a prompt longer
    than [max_chars] plus the length of the template. *)
Lemma prompt_exceeds_stated_bound :
  exists prompt,
    sent_prompts (snd (process_with_openai
                         (stub_world page_ok (ChatReply reply_prose))
                         stub_scraper long_text)) = [prompt]
    /\ (len prompt > max_chars + len prompt_template)%Z.
Proof.
  eexists. split; [apply process_with_openai_prompts|].
  vm_compute. reflexivity.
Qed.







(** ** [scrape_and_process_roma_yemek] *)

Lemma scrape_with_requests_no_chat (w : world) (self : RomaYemekScraper)
      (url : pystr) :
  chat_calls (snd (scrape_with_requests w self url)) = [].
Proof.
  unfold scrape_with_requests, request_for, call_get.
  destruct (requests_get w _) as [e|sc rs body].
  - reflexivity.
  - unfold raise_for_status. run.
    destruct ((400 <=? sc)%Z && (sc <? 500)%Z); [reflexivity|].
    destruct ((500 <=? sc)%Z && (sc <? 600)%Z); reflexivity.
Qed.

(** C1, as the code has it: when the fetch step returns the empty
    string, the method returns the initial dictionary, in which
    [processed] is false and [openai_result] is the empty dictionary, and
    no completion call is issued. *)
Theorem empty_fetch_short_circuits (w : world) (self : RomaYemekScraper)
        (url : pystr) :
  fst (scrape_with_requests w self url) = Ok [] ->
  fst (scrape_and_process_roma_yemek w self url)
  = Ok [ (py "url", PStr url);
         (py "title", PStr (py "Roma'da Ne Nerede Yenir"));
         (py "processed", PBool false);
         (py "openai_result", PDict []) ]
  /\ chat_calls (snd (scrape_and_process_roma_yemek w self url)) = [].
Proof.
  intros Hfetch.
  pose proof (scrape_with_requests_no_chat w self url) as Hquiet.
  unfold scrape_and_process_roma_yemek.
  destruct (scrape_with_requests w self url) as [r t].
  cbn [fst snd] in Hfetch, Hquiet. subst r. run.
  split; [reflexivity|].
  unfold chat_calls in *. cbn [flat_map app].
  rewrite flat_map_app, Hquiet. reflexivity.
Qed.

Lemma empty_fetch_short_circuits_witness :
  fst (scrape_and_process_roma_yemek
         (stub_world page_unreachable (ChatReply reply_prose))
         stub_scraper stub_url)
  = Ok [ (py "url", PStr stub_url);
         (py "title", PStr (py "Roma'da Ne Nerede Yenir"));
         (py "processed", PBool false);
         (py "openai_result", PDict []) ]
  /\ chat_calls (snd (scrape_and_process_roma_yemek
                        (stub_world page_unreachable (ChatReply reply_prose))
                        stub_scraper stub_url)) = [].
Proof.
  apply (@empty_fetch_short_circuits
           (stub_world page_unreachable (ChatReply reply_prose))
           stub_scraper stub_url).
  vm_compute. reflexivity.
Defined.

(** C1 as stated fails: after an empty fetch the extraction is the empty
    dictionary; it is not the failure dictionary with the message
    [fetch returned no content]. *)
Lemma empty_fetch_carries_no_failure :
  fst (scrape_with_requests
         (stub_world page_unreachable (ChatReply reply_prose))
         stub_scraper stub_url) = Ok []
  /\ exists results,
      fst (scrape_and_process_roma_yemek
             (stub_world page_unreachable (ChatReply reply_prose))
             stub_scraper stub_url) = Ok results
      /\ dict_get (py "openai_result") results = Some (PDict [])
      /\ dict_get (py "openai_result") results
         <> Some (Failed (py "fetch returned no content")).
Proof.
  split; [vm_compute; reflexivity|].
  eexists. split; [vm_compute; reflexivity|].
  split; [vm_compute; reflexivity|].
  vm_compute. discriminate.
Qed.

(** ** The JSON decoder always finishes *)

Module JsonFacts.
Import Json.

Lemma skip_ws_length s : length (skip_ws s) <= length s.
Proof.
  induction s as [|c s IH]; simpl; [lia|].
  destruct (json_ws c); simpl; lia.
Qed.

Lemma skip_ws_cons s c r : skip_ws s = c :: r -> length r < length s.
Proof.
  intros H. pose proof (skip_ws_length s) as Hl. rewrite H in Hl.
  simpl in Hl. lia.
Qed.

Lemma span_digits_length s : length (snd (span_digits s)) <= length s.
Proof.
  induction s as [|c s IH]; simpl; [lia|].
  destruct (is_digit c); [|simpl; lia].
  destruct (span_digits s) as [d r]. simpl in *. lia.
Qed.

Lemma strip_prefix_length w s r :
  strip_prefix w s = Some r -> length r <= length s.
Proof.
  intros H. apply strip_prefix_Some in H. subst s. rewrite length_app. lia.
Qed.

Ltac split_match H :=
  match type of H with
  | context [if ?b then _ else _] => destruct b eqn:?
  | context [match ?x with _ => _ end] => destruct x eqn:?
  end; cbv beta match in H.

Lemma scanstring_length n : forall s acc k r,
  length s <= n -> scanstring s acc = Some (k, r) -> length r < length s.
Proof.
  induction n as [|n IH]; intros s acc k r Hn H.
  - destruct s; [discriminate | simpl in Hn; lia].
  - destruct s as [|c s1]; [discriminate|].
    cbn [scanstring] in H. cbn [length] in *.
    repeat (split_match H; try discriminate);
      subst; cbn [length] in *;
      try (injection H as _ <-; lia);
      try (apply IH in H; cbn [length] in *; lia).
Qed.

Lemma number_sign_length s : length (snd (number_sign s)) <= length s.
Proof.
  destruct s as [|c r]; simpl; [lia|].
  destruct (c =? 45)%N; simpl; lia.
Qed.

Lemma number_int_length s ds r :
  number_int s = Some (ds, r) -> length r <= length s.
Proof.
  destruct s as [|c s]; simpl; [discriminate|].
  destruct (c =? 48)%N; [intros [= _ <-]; lia|].
  destruct (is_digit c); [|discriminate].
  pose proof (span_digits_length s) as L.
  destruct (span_digits s) as [d r']. intros [= _ <-]. simpl in L. lia.
Qed.

Lemma number_frac_length s : length (snd (number_frac s)) <= length s.
Proof.
  destruct s as [|p [|d s]]; simpl; try lia.
  destruct ((p =? 46)%N && is_digit d); [|simpl; lia].
  pose proof (span_digits_length s) as L.
  destruct (span_digits s) as [ds r']. simpl in *. lia.
Qed.

Lemma number_exp_length s : length (snd (number_exp s)) <= length s.
Proof.
  destruct s as [|e r]; simpl; [lia|].
  destruct ((e =? 101)%N || (e =? 69)%N); [|simpl; lia].
  assert (H : forall sign r', length r' <= length r ->
            length (snd (match span_digits r' with
                         | ([], _) => ([], e :: r)
                         | (ds, r'') => (e :: sign ++ ds, r'')
                         end)) <= S (length r)).
  { intros sign r' Hr'. pose proof (span_digits_length r') as L.
    destruct (span_digits r') as [[|c ds] r'']; simpl in *; lia. }
  destruct r as [|sg [|x r2]].
  - apply H. simpl. lia.
  - apply H. simpl. lia.
  - destruct ((sg =? 45)%N || (sg =? 43)%N); apply H; simpl; lia.
Qed.

Lemma match_number_length s v r :
  match_number s = Some (v, r) -> length r <= length s.
Proof.
  unfold match_number.
  pose proof (number_sign_length s) as L1.
  destruct (number_sign s) as [neg s1]. cbn [snd] in L1.
  destruct (number_int s1) as [[ds r1]|] eqn:E; [|discriminate].
  apply number_int_length in E.
  pose proof (number_frac_length r1) as L2.
  destruct (number_frac r1) as [frac r2]. cbn [snd] in L2.
  pose proof (number_exp_length r2) as L3.
  destruct (number_exp r2) as [expo r3]. cbn [snd] in L3.
  destruct frac, expo; intros [= _ <-]; lia.
Qed.

Lemma scan_once_S n s :
  scan_once (S n) s =
  match s with
  | [] => Invalid
  | c :: s1 =>
    if (c =? 34)%N then
      match scanstring s1 [] with
      | Some (str, r) => Parsed (PStr str) r
      | None => Invalid
      end
    else if (c =? 123)%N then
      match skip_ws s1 with
      | c' :: r =>
        if (c' =? 125)%N then Parsed (PDict []) r else parse_members n (c' :: r) []
      | [] => Invalid
      end
    else if (c =? 91)%N then
      match skip_ws s1 with
      | c' :: r =>
        if (c' =? 93)%N then Parsed (PList []) r else parse_elements n (c' :: r) []
      | [] => Invalid
      end
    else
      match strip_prefix (py "null") s, strip_prefix (py "true") s,
            strip_prefix (py "false") s, strip_prefix (py "NaN") s,
            strip_prefix (py "Infinity") s, strip_prefix (py "-Infinity") s with
      | Some r, _, _, _, _, _ => Parsed PNone r
      | _, Some r, _, _, _, _ => Parsed (PBool true) r
      | _, _, Some r, _, _, _ => Parsed (PBool false) r
      | _, _, _, Some r, _, _ => Parsed (PFloat (py "NaN")) r
      | _, _, _, _, Some r, _ => Parsed (PFloat (py "Infinity")) r
      | _, _, _, _, _, Some r => Parsed (PFloat (py "-Infinity")) r
      | _, _, _, _, _, _ =>
        match match_number s with
        | Some (v, r) => Parsed v r
        | None => Invalid
        end
      end
  end.
Proof. reflexivity. Qed.

Lemma parse_members_S n s acc :
  parse_members (S n) s acc =
  match s with
  | q :: s1 =>
    if (q =? 34)%N then
      match scanstring s1 [] with
      | None => Invalid
      | Some (key, r1) =>
        match skip_ws r1 with
        | colon :: r2 =>
          if (colon =? 58)%N then
            match scan_once n (skip_ws r2) with
            | Parsed v r3 =>
              match skip_ws r3 with
              | d :: r4 =>
                if (d =? 125)%N then
                  Parsed (PDict (dict_of_pairs (rev ((key, v) :: acc)))) r4
                else if (d =? 44)%N then
                  parse_members n (skip_ws r4) ((key, v) :: acc)
                else Invalid
              | [] => Invalid
              end
            | other => other
            end
          else Invalid
        | [] => Invalid
        end
      end
    else Invalid
  | [] => Invalid
  end.
Proof. reflexivity. Qed.

Lemma parse_elements_S n s acc :
  parse_elements (S n) s acc =
  match scan_once n s with
  | Parsed v r1 =>
    match skip_ws r1 with
    | d :: r2 =>
      if (d =? 93)%N then Parsed (PList (rev (v :: acc))) r2
      else if (d =? 44)%N then parse_elements n (skip_ws r2) (v :: acc)
      else Invalid
    | [] => Invalid
    end
  | other => other
  end.
Proof. reflexivity. Qed.

Ltac split_goal :=
  match goal with
  | |- context [if ?b then _ else _] => destruct b eqn:?
  | |- context [match ?x with _ => _ end] => destruct x eqn:?
  end; cbv beta match.

(** collect the length facts the hypotheses give *)
Ltac lengths :=
  repeat match goal with
  | H : skip_ws _ = _ :: _ |- _ => apply skip_ws_cons in H
  | H : scanstring ?s _ = Some _ |- _ =>
    apply (@scanstring_length (length s)) in H; [|apply le_n]
  | H : strip_prefix _ _ = Some _ |- _ => apply strip_prefix_length in H
  | H : match_number _ = Some _ |- _ => apply match_number_length in H
  | IH : (forall s v r, scan_once ?n s = Parsed v r -> _),
    H : scan_once ?n _ = Parsed _ _ |- _ => apply IH in H
  | IH : (forall s acc v r, parse_members ?n s acc = Parsed v r -> _),
    H : parse_members ?n _ _ = Parsed _ _ |- _ => apply IH in H
  | IH : (forall s acc v r, parse_elements ?n s acc = Parsed v r -> _),
    H : parse_elements ?n _ _ = Parsed _ _ |- _ => apply IH in H
  end;
  repeat match goal with
  | |- context [skip_ws ?x] =>
    lazymatch goal with
    | _ : length (skip_ws x) <= length x |- _ => fail
    | _ => pose proof (skip_ws_length x)
    end
  | _ : context [skip_ws ?x] |- _ =>
    lazymatch goal with
    | _ : length (skip_ws x) <= length x |- _ => fail
    | _ => pose proof (skip_ws_length x)
    end
  end;
  subst; cbn [length] in *.

Lemma rounds_suffice n :
  (forall s, (2 * length s + 1 <= n -> scan_once n s <> Unfinished)
             /\ forall v r, scan_once n s = Parsed v r -> length r <= length s)
  /\ (forall s acc,
        (2 * length s + 1 <= n -> parse_members n s acc <> Unfinished)
        /\ forall v r, parse_members n s acc = Parsed v r -> length r <= length s)
  /\ (forall s acc,
        (2 * length s + 2 <= n -> parse_elements n s acc <> Unfinished)
        /\ forall v r, parse_elements n s acc = Parsed v r -> length r <= length s).
Proof.
  induction n as [|n (IHs & IHm & IHe)].
  - repeat split; intros; simpl in *; try lia; discriminate.
  - assert (Fs : forall s, 2 * length s + 1 <= n -> scan_once n s <> Unfinished)
      by (intros; now apply IHs).
    assert (Ls : forall s v r, scan_once n s = Parsed v r -> length r <= length s)
      by (intros ? ? ?; now apply IHs).
    assert (Fm : forall s acc, 2 * length s + 1 <= n -> parse_members n s acc <> Unfinished)
      by (intros; now apply IHm).
    assert (Lm : forall s acc v r, parse_members n s acc = Parsed v r -> length r <= length s)
      by (intros ? ? ? ?; now apply IHm).
    assert (Fe : forall s acc, 2 * length s + 2 <= n -> parse_elements n s acc <> Unfinished)
      by (intros; now apply IHe).
    assert (Le : forall s acc v r, parse_elements n s acc = Parsed v r -> length r <= length s)
      by (intros ? ? ? ?; now apply IHe).
    clear IHs IHm IHe.
    split; [|split].
    + intros s. rewrite scan_once_S. split.
      * intros Hn. repeat split_goal; try discriminate;
          first [apply Fm | apply Fe]; lengths; lia.
      * intros v r H. repeat (split_match H; try discriminate);
          try (injection H as _ <-); lengths; lia.
    + intros s acc. rewrite parse_members_S. split.
      * intros Hn. repeat split_goal; try discriminate;
          try (apply Fm; lengths; lia).
        all: exfalso;
          match goal with
          | E : scan_once _ ?x = Unfinished |- _ => apply (Fs x); [|exact E]
          end; lengths; lia.
      * intros v r H. repeat (split_match H; try discriminate);
          try (injection H as _ <-); lengths; lia.
    + intros s acc. rewrite parse_elements_S. split.
      * intros Hn. repeat split_goal; try discriminate;
          try (apply Fe; lengths; lia).
        all: exfalso;
          match goal with
          | E : scan_once _ ?x = Unfinished |- _ => apply (Fs x); [|exact E]
          end; lengths; lia.
      * intros v r H. repeat (split_match H; try discriminate);
          try (injection H as _ <-); lengths; lia.
Qed.

(** [json.loads] never stops for lack of rounds. *)
Lemma scan_once_finishes s : scan_once (rounds s) (skip_ws s) <> Unfinished.
Proof.
  apply rounds_suffice. unfold rounds.
  pose proof (skip_ws_length s). lia.
Qed.
End JsonFacts.

(** ** No output before [main] prints *)

Lemma printed_app t1 t2 : printed (t1 ++ t2) = printed t1 ++ printed t2.
Proof. apply flat_map_app. Qed.

Lemma scrape_with_requests_silent w self url :
  printed (snd (scrape_with_requests w self url)) = [].
Proof.
  unfold scrape_with_requests, request_for, call_get.
  destruct (requests_get w _) as [e|sc rs body].
  - reflexivity.
  - unfold raise_for_status. run.
    destruct ((400 <=? sc)%Z && (sc <? 500)%Z); [reflexivity|].
    destruct ((500 <=? sc)%Z && (sc <? 600)%Z); reflexivity.
Qed.

Lemma html_to_markdown_run w html :
  fst (html_to_markdown w html)
  = Ok (_clean_markdown
          (md w (match soup_article w html with
                 | Some article => article
                 | None => soup_body w html
                 end)))
  /\ printed (snd (html_to_markdown w html)) = []
  /\ chat_calls (snd (html_to_markdown w html)) = [].
Proof.
  unfold html_to_markdown. destruct (soup_article w html); run; auto.
Qed.

Lemma process_with_openai_silent w self markdown_content :
  printed (snd (process_with_openai w self markdown_content)) = [].
Proof.
  unfold process_with_openai, call_chat, json_loads.
  destruct (len markdown_content >? max_chars)%Z; run;
    destruct (chat_completions_create w _) as [e|reply]; run;
    try reflexivity;
    destruct (Json.loads (parse_candidate reply)); reflexivity.
Qed.

(** a fetched page is converted, sent to the model, and the answer
    stored under [openai_result] with [processed] set *)
Lemma scrape_and_process_run w self url c html :
  fst (scrape_with_requests w self url) = Ok (c :: html) ->
  exists markdown_content openai_result,
    fst (html_to_markdown w (c :: html)) = Ok markdown_content
    /\ fst (process_with_openai w self markdown_content) = Ok openai_result
    /\ fst (scrape_and_process_roma_yemek w self url)
       = Ok [ (py "url", PStr url);
              (py "title", PStr (py "Roma'da Ne Nerede Yenir"));
              (py "processed", PBool true);
              (py "openai_result", openai_result) ]
    /\ printed (snd (scrape_and_process_roma_yemek w self url)) = [].
Proof.
  intros Hfetch.
  pose proof (scrape_with_requests_silent w self url) as Hq.
  destruct (html_to_markdown_run w (c :: html)) as (Hmd & Hmq & _).
  set (markdown_content :=
         _clean_markdown
           (md w match soup_article w (c :: html) with
                 | Some article => article
                 | None => soup_body w (c :: html)
                 end)) in *.
  pose proof (process_with_openai_result w self markdown_content) as Hres.
  pose proof (process_with_openai_silent w self markdown_content) as Hpq.
  exists markdown_content. eexists.
  split; [exact Hmd|]. split; [exact Hres|].
  unfold scrape_and_process_roma_yemek.
  destruct (scrape_with_requests w self url) as [r t]. cbn [fst snd] in *.
  subst r. run.
  destruct (html_to_markdown w (c :: html)) as [rm tm]. cbn [fst snd] in *.
  subst rm. run.
  destruct (process_with_openai w self markdown_content) as [ro to].
  cbn [fst snd] in *. subst ro. run.
  split; [reflexivity|].
  change (printed (EvLog INFO (py "Roma yemek rehberi scraping başlatılıyor: " ++ url)
                    :: t ++ tm ++ to ++ [EvLog INFO (py "Roma yemek rehberi işlendi.")]))
    with (printed (t ++ tm ++ to ++ [EvLog INFO (py "Roma yemek rehberi işlendi.")])).
  rewrite !printed_app, Hq, Hmq, Hpq. reflexivity.
Qed.

(** ** [main] *)

Lemma results_processed url title processed openai_result :
  py_getitem (PDict [ (py "url", url); (py "title", title);
                      (py "processed", processed);
                      (py "openai_result", openai_result) ])
             (py "processed") = (Ok processed, []).
Proof. reflexivity. Qed.

Lemma results_openai_result url title processed openai_result :
  py_getitem (PDict [ (py "url", url); (py "title", title);
                      (py "processed", processed);
                      (py "openai_result", openai_result) ])
             (py "openai_result") = (Ok openai_result, []).
Proof. reflexivity. Qed.

Lemma text_result_has_error result_text :
  py_in (py "error") (text_result result_text) = (Ok true, [])
  /\ py_in (py "error_message") (text_result result_text) = (Ok false, []).
Proof. split; reflexivity. Qed.

(** Whenever the page is fetched and the reply is not JSON, [main] ends
    in its failure branch: the text dictionary holds the key [error]. *)
Lemma main_text_reply w c html markdown_content reply :
  fst (scrape_with_requests w main_scraper roma_yemek_url) = Ok (c :: html) ->
  fst (html_to_markdown w (c :: html)) = Ok markdown_content ->
  chat_completions_create w (completion_request (prompt_for markdown_content))
  = ChatReply reply ->
  Json.loads (parse_candidate reply) = None ->
  fst (main w) = Ok tt
  /\ printed (snd (main w))
     = [ [NL; NL] ++ py "Hata: Roma yemek rehberi işlenemedi." ].
Proof.
  intros Hfetch Hmd Hreply Hloads.
  destruct (scrape_and_process_run w main_scraper roma_yemek_url Hfetch)
    as (markdown' & openai_result & Hmd' & Hres & Hrun & Hquiet).
  rewrite Hmd in Hmd'. injection Hmd' as <-.
  rewrite process_with_openai_result, Hreply, Hloads in Hres.
  injection Hres as <-.
  destruct (text_result_has_error (parse_candidate reply)) as [Herr Hmsg].
  unfold main, __init__. run.
  change {| openai_api_key := py "open_api_keyiniz"; proxy := None;
            user_agent := default_user_agent; timeout := 30 |}
    with main_scraper.
  destruct (scrape_and_process_roma_yemek w main_scraper roma_yemek_url)
    as [results t]. cbn [fst snd] in *. subst results. run.
  rewrite results_processed, results_openai_result. run.
  cbn [truthy]. rewrite Herr. run. cbn [andb negb]. rewrite Hmsg. run.
  split; [reflexivity|].
  change (printed (?e :: ?l)) with (printed [e] ++ printed l).
  rewrite printed_app, Hquiet. reflexivity.
Qed.

(** C6 fails on the code: with a page that is fetched and a reply in
    prose, the pipeline returns the text dictionary, whose key [error]
    is present, and [main] prints the failure line and nothing else. *)
Theorem main_reports_text_reply_as_failure :
  fst (process_with_openai (stub_world page_ok (ChatReply reply_prose))
                           stub_scraper (py "Carbonara"))
  = Ok (text_result reply_prose)
  /\ fst (main (stub_world page_ok (ChatReply reply_prose))) = Ok tt
  /\ printed (snd (main (stub_world page_ok (ChatReply reply_prose))))
     = [ [NL; NL] ++ py "Hata: Roma yemek rehberi işlenemedi." ].
Proof.
  split; [vm_compute; reflexivity|].
  apply (@main_text_reply _ 60%N (py "article>Carbonara</article>")
                          (py "<article>Carbonara</article>") reply_prose);
    vm_compute; reflexivity.
Qed.

(** ** Worked examples *)

Example collapse_example :
  collapse_blank_lines (py "a" ++ [NL; NL; NL; NL; NL] ++ py "b" ++ [NL; NL] ++ py "c")
  = py "a" ++ [NL; NL] ++ py "b" ++ [NL; NL] ++ py "c".
Proof. vm_compute. reflexivity. Qed.

Example clean_markdown_example :
  _clean_markdown
    (py "  Skip to content menu Biz Evde Yokuz" ++ [NL; NL; NL; NL]
     ++ py "# Title" ++ [NL; NL] ++ py "Text" ++ [NL])
  = py "Biz Evde Yokuz" ++ [NL; NL] ++ py "# Title" ++ [NL; NL] ++ py "Text".
Proof. vm_compute. reflexivity. Qed.

Example parse_candidate_fenced :
  parse_candidate (py "Here it is: ```json" ++ [NL] ++ reply_object ++ [NL]
                   ++ py "``` enjoy")
  = reply_object.
Proof. vm_compute. reflexivity. Qed.

Example parse_candidate_plain : parse_candidate reply_prose = reply_prose.
Proof. vm_compute. reflexivity. Qed.

Example loads_nested :
  Json.loads (py "{" ++ quoted "yemekler" ++ py ": [ {" ++ quoted "isim"
              ++ py ": " ++ quoted "Cacio e pepe" ++ py "}, 2.5e1, null ] }")
  = Some (PDict [ (py "yemekler",
                   PList [ PDict [ (py "isim", PStr (py "Cacio e pepe")) ];
                           PFloat (py "2.5e1"); PNone ]) ]).
Proof. vm_compute. reflexivity. Qed.

Example loads_rejects_trailing_comma : Json.loads (py "[1,]") = None.
Proof. vm_compute. reflexivity. Qed.

Example prompt_template_length :
  len prompt_template = 916%Z /\ len truncation_notice = 42%Z.
Proof. split; vm_compute; reflexivity. Qed.

(** The completion service fails: the failure dictionary is stored and
    [main] prints the failure line followed by the message. *)
Example main_completion_failure :
  printed (snd (main (stub_world page_ok
                        (ChatRaises (Exn OpenAIError (py "quota exceeded"))))))
  = [ [NL; NL] ++ py "Hata: Roma yemek rehberi işlenemedi.";
      py "Hata mesajı: quota exceeded" ].
Proof. vm_compute. reflexivity. Qed.

(** A reply that is JSON without the key [error] is printed as the
    summary. *)
Example main_structured_reply :
  printed (snd (main (stub_world page_ok (ChatReply reply_object))))
  = [ [NL; NL] ++ py "=== ROMA YEMEK REHBERİ ÖZETİ ===" ++ [NL]; [] ].
Proof. vm_compute. reflexivity. Qed.

(* ================================================================= *)
(** * Further properties of the code *)

(** ** [_clean_markdown]: what a pass removes and what it keeps *)

Lemma subsequence_refl s : subsequence s s.
Proof. induction s; constructor; assumption. Qed.

Lemma subsequence_nil s : subsequence [] s.
Proof. induction s; constructor; assumption. Qed.

Lemma subsequence_app a b c d :
  subsequence a b -> subsequence c d -> subsequence (a ++ c) (b ++ d).
Proof. induction 1; intros Hcd; cbn [app]; try constructor; auto. Qed.

Lemma subsequence_trans a b c :
  subsequence a b -> subsequence b c -> subsequence a c.
Proof.
  intros Hab Hbc. revert a Hab.
  induction Hbc as [|x b c Hbc IH|x b c Hbc IH]; intros a Hab.
  - assumption.
  - inversion Hab; subst; constructor; auto.
  - constructor. auto.
Qed.

Lemma subsequence_length a b : subsequence a b -> length a <= length b.
Proof. induction 1; simpl; lia. Qed.

Lemma collapse_subsequence s : subsequence (collapse_blank_lines s) s.
Proof.
  remember (length s) as n eqn:Hn. revert s Hn.
  induction n as [n IH] using lt_wf_ind. intros s ->.
  rewrite collapse_unfold.
  destruct (search blank_lines_re s) as [f|] eqn:E; [|apply subsequence_refl].
  pose proof (search_shorter _ _ E) as Hlen. simpl in Hlen.
  destruct (search_Some _ _ E) as (m & Heq & Hmin & Hm & _).
  apply blank_here_Some in Hm. destruct Hm as [Hm _].
  rewrite Heq at 1. apply subsequence_app; [apply subsequence_refl|].
  destruct m as [|a [|b [|c m]]]; try (simpl in Hmin; lia).
  cbn [app firstn] in Hm. injection Hm as -> -> ->.
  cbn [app]. constructor. constructor. apply subseq_drop.
  apply (@subsequence_app [] m); [apply subsequence_nil|].
  apply (IH (length (after f))); [lia | reflexivity].
Qed.

Lemma strip_subsequence s : subsequence (strip s) s.
Proof.
  destruct (strip_split s) as (ws1 & ws2 & Hs & _).
  remember (strip s) as t eqn:Ht. clear Ht. subst s.
  apply (@subsequence_app [] ws1); [apply subsequence_nil|].
  rewrite <- (app_nil_r t) at 1.
  apply subsequence_app; [apply subsequence_refl | apply subsequence_nil].
Qed.

Lemma remove_boilerplate_subsequence s : subsequence (remove_boilerplate s) s.
Proof.
  remember (length s) as n eqn:Hn. revert s Hn.
  induction n as [n IH] using lt_wf_ind. intros s ->.
  rewrite boilerplate_unfold.
  destruct (search boilerplate_re s) as [f|] eqn:E; [|apply subsequence_refl].
  pose proof (search_shorter _ _ E) as Hlen. pose proof boilerplate_min.
  destruct (search_boilerplate_Some _ E) as (p & Hs & _).
  rewrite Hs at 1. apply subsequence_app; [apply subsequence_refl|].
  apply (@subsequence_app [] skip_text
           (anchor_text ++ remove_boilerplate (after f))
           (p ++ anchor_text ++ after f)); [apply subsequence_nil|].
  apply (@subsequence_app [] p
           (anchor_text ++ remove_boilerplate (after f))
           (anchor_text ++ after f)); [apply subsequence_nil|].
  apply (@subsequence_app anchor_text anchor_text
           (remove_boilerplate (after f)) (after f));
    [apply subsequence_refl|].
  apply (IH (length (after f))); [lia | reflexivity].
Qed.

(** X1: normalisation only deletes characters: the text returned by
    [_clean_markdown] is a subsequence of its input, so it is never
    longer than the input. *)
Theorem clean_markdown_only_deletes (markdown_content : pystr) :
  subsequence (_clean_markdown markdown_content) markdown_content
  /\ length (_clean_markdown markdown_content) <= length markdown_content.
Proof.
  assert (H : subsequence (_clean_markdown markdown_content) markdown_content).
  { unfold _clean_markdown.
    eapply subsequence_trans; [apply remove_boilerplate_subsequence|].
    eapply subsequence_trans; [apply strip_subsequence|].
    apply collapse_subsequence. }
  split; [exact H | now apply subsequence_length].
Qed.

Lemma boilerplate_free_search s :
  (forall u p v, s <> u ++ skip_text ++ p ++ anchor_text ++ v)
  <-> search boilerplate_re s = None.
Proof.
  rewrite search_None. split.
  - intros H u t ->.
    destruct (match_here boilerplate_re t) as [[g rest]|] eqn:E; [|reflexivity].
    apply boilerplate_here_Some in E. destruct E as (p & ->).
    exfalso. now apply (H u p rest).
  - intros H u p v Hs. specialize (H u _ Hs).
    rewrite boilerplate_here, strip_prefix_app in H.
    now apply (@scan_anchor_found p v).
Qed.

(** X2: one pass removes every boilerplate span: in the text returned by
    [_clean_markdown] no occurrence of [Skip to content] is followed by an
    occurrence of [Biz Evde Yokuz]. *)
Theorem clean_markdown_no_boilerplate (markdown_content u p v : pystr) :
  _clean_markdown markdown_content
  <> u ++ py "Skip to content" ++ p ++ py "Biz Evde Yokuz" ++ v.
Proof.
  apply (proj2 (boilerplate_free_search (_clean_markdown markdown_content))).
  unfold _clean_markdown. apply remove_boilerplate_settled.
Qed.

(** X3: the texts [_clean_markdown] leaves unchanged are exactly those
    with no three consecutive newlines, no whitespace at either end and
    no boilerplate span. *)
Theorem clean_markdown_fixed_points (s : pystr) :
  _clean_markdown s = s
  <-> ((forall u v, s <> u ++ [NL; NL; NL] ++ v)
       /\ ((forall c t, s = c :: t -> isspace c = false)
           /\ (forall c t, s = t ++ [c] -> isspace c = false))
       /\ (forall u p v, s <> u ++ skip_text ++ p ++ anchor_text ++ v)).
Proof.
  split.
  - intros H. rewrite <- H. split; [|split].
    + apply clean_markdown_free.
    + apply clean_markdown_trimmed.
    + apply boilerplate_free_search. unfold _clean_markdown.
      apply remove_boilerplate_settled.
  - intros (Hfree & Htrim & Hspan). unfold _clean_markdown.
    unfold collapse_blank_lines.
    rewrite sub_no_match by now apply free_search.
    rewrite (@strip_id s Htrim).
    apply sub_no_match. now apply boilerplate_free_search.
Qed.

Lemma clean_markdown_fixed_points_witness :
  (forall u v, py "# Title" ++ [NL; NL] ++ py "Text" <> u ++ [NL; NL; NL] ++ v)
  /\ _clean_markdown (py "# Title" ++ [NL; NL] ++ py "Text")
     = py "# Title" ++ [NL; NL] ++ py "Text".
Proof.
  assert (H : _clean_markdown (py "# Title" ++ [NL; NL] ++ py "Text")
              = py "# Title" ++ [NL; NL] ++ py "Text")
    by (vm_compute; reflexivity).
  split; [|exact H].
  apply (proj1 (clean_markdown_fixed_points
                  (py "# Title" ++ [NL; NL] ++ py "Text")) H).
Defined.

Lemma star_greedy_nl_content (B : Type) (b : B) t rest :
  star_greedy is_nl t (fun t' => Some (b, t')) = Some (b, rest) ->
  without_newlines t = without_newlines rest.
Proof.
  revert rest. induction t as [|c t IH]; intros rest; cbn [star_greedy].
  - now intros [= <-].
  - destruct (is_nl c) eqn:E.
    + destruct (star_greedy_nl (fun t' => (b, t')) t) as (r & Hr & _).
      rewrite Hr. intros [= <-].
      unfold without_newlines at 1. cbn [filter]. rewrite E. cbn [negb].
      apply IH. exact Hr.
    + intros [= <-]. reflexivity.
Qed.

Lemma blank_here_content s g rest :
  match_here blank_lines_re s = Some (g, rest) ->
  without_newlines s = without_newlines rest.
Proof.
  rewrite blank_here. destruct s as [|a [|b [|c t]]]; try discriminate.
  destruct (is_nl a) eqn:Ea; [|discriminate].
  destruct (is_nl b) eqn:Eb; [|discriminate].
  destruct (is_nl c) eqn:Ec; [|discriminate].
  cbn [andb]. intros H.
  unfold without_newlines. cbn [filter]. rewrite Ea, Eb, Ec. cbn [negb].
  destruct (star_greedy_nl (fun t' => (@None pystr, t')) t) as (r & Hr & _).
  rewrite Hr in H. injection H as <- <-.
  now apply (@star_greedy_nl_content _ (@None pystr)).
Qed.

(** X4: collapsing blank lines deletes newline characters only: every
    other character of the text is kept, in order. *)
Theorem collapse_keeps_other_characters (s : pystr) :
  without_newlines (collapse_blank_lines s) = without_newlines s.
Proof.
  remember (length s) as n eqn:Hn. revert s Hn.
  induction n as [n IH] using lt_wf_ind. intros s ->.
  rewrite collapse_unfold.
  destruct (search blank_lines_re s) as [f|] eqn:E; [|reflexivity].
  pose proof (search_shorter _ _ E) as Hlen. simpl in Hlen.
  destruct (search_Some _ _ E) as (m & Heq & _ & Hm & _).
  apply blank_here_content in Hm.
  rewrite Heq at 1. unfold without_newlines in *.
  rewrite (filter_app _ (before f) (m ++ after f)), Hm.
  rewrite (filter_app _ (before f)). f_equal.
  change (filter (fun c => negb (is_nl c))
            ([NL; NL] ++ collapse_blank_lines (after f)))
    with (filter (fun c => negb (is_nl c)) (collapse_blank_lines (after f))).
  apply (IH (length (after f))); [lia | reflexivity].
Qed.

(** ** The fenced block of a reply *)

Lemma fence_here s :
  match_here fence_re s =
  match strip_prefix fence_open s with
  | Some s1 => star_greedy isspace s1 fence_body
  | None => None
  end.
Proof.
  unfold match_here, fence_re. cbn [rmatch consume].
  destruct (strip_prefix fence_open s); reflexivity.
Qed.

Lemma fence_open_chars : fence_open = [96; 96; 96; 106; 115; 111; 110]%N.
Proof. reflexivity. Qed.

Lemma fence_close_chars : fence_close = [96; 96; 96]%N.
Proof. reflexivity. Qed.

(** A match of the fence pattern starts at a backtick. *)
Lemma fence_here_head c s : c <> 96%N -> match_here fence_re (c :: s) = None.
Proof.
  intros Hc. rewrite fence_here, fence_open_chars. cbn [strip_prefix].
  destruct (N.eqb_spec 96 c); [congruence | reflexivity].
Qed.

Lemma search_fence_skip pre s :
  ~ In 96%N pre ->
  search fence_re (pre ++ s)
  = match search fence_re s with
    | Some f => Some (Found (pre ++ before f) (group1 f) (after f))
    | None => None
    end.
Proof.
  induction pre as [|c pre IH]; intros Hpre.
  - cbn [app]. destruct (search fence_re s) as [[b g a]|]; reflexivity.
  - cbn [app]. rewrite search_cons, fence_here_head.
    + rewrite IH by (intros Hi; apply Hpre; now right).
      destruct (search fence_re s); reflexivity.
    + intros ->. apply Hpre. now left.
Qed.

(** The closing part succeeds across whitespace in front of the fence. *)
Lemma close_fence_found g ws post :
  all_space ws -> close_fence g (ws ++ fence_close ++ post) = Some (g, post).
Proof.
  unfold close_fence. induction 1 as [|c ws Hc _ IH].
  - rewrite fence_close_chars. reflexivity.
  - cbn [app star_greedy]. rewrite Hc, IH. reflexivity.
Qed.

(** It fails in front of any other visible character, and at the end of
    the text. *)
Lemma close_fence_blocked g ws r :
  all_space ws ->
  (forall c t, r = c :: t -> isspace c = false /\ c <> 96%N) ->
  close_fence g (ws ++ r) = None.
Proof.
  unfold close_fence. intros Hws Hr.
  assert (Hk : forall t, (forall c t', t = c :: t' -> c <> 96%N) ->
                match strip_prefix fence_close t with
                | Some r' => Some (g, r')
                | None => None
                end = None).
  { intros [|c t'] Ht; rewrite fence_close_chars; [reflexivity|].
    cbn [strip_prefix]. destruct (N.eqb_spec 96 c) as [<-|]; [|reflexivity].
    exfalso. now apply (Ht 96%N t'). }
  induction Hws as [|c ws Hc _ IH].
  - cbn [app]. destruct r as [|c t]; cbn [star_greedy]; [now apply Hk|].
    destruct (Hr c t eq_refl) as [Hsp Hbt]. rewrite Hsp.
    apply Hk. now intros c' t' [= <- _].
  - cbn [app star_greedy]. rewrite Hc, IH. apply Hk.
    intros c' t' [= <- _] ->. discriminate.
Qed.

(** A text whose last character is visible splits, at every position,
    into whitespace followed by a visible character. *)
Lemma visible_suffix c y :
  (forall x t, c :: y = t ++ [x] -> isspace x = false) ->
  exists ws d r, c :: y = ws ++ d :: r /\ all_space ws /\ isspace d = false.
Proof.
  intros Hlast. destruct (lstrip_split (c :: y)) as (ws & Hs & Hws).
  destruct (lstrip (c :: y)) as [|d r] eqn:E.
  - exfalso. rewrite app_nil_r in Hs.
    destruct (@exists_last _ (c :: y)) as (t & x & Hx); [discriminate|].
    pose proof (Hlast x t Hx) as Hvis.
    unfold all_space in Hws. rewrite <- Hs, Hx in Hws.
    apply Forall_app in Hws. destruct Hws as [_ Hws].
    inversion Hws; congruence.
  - exists ws, d, r. split; [exact Hs|]. split; [exact Hws|].
    now apply lstrip_head in E.
Qed.

(** The lazy group stops at the end of a payload without backticks whose
    last character is visible. *)
Lemma star_lazy_payload (K : pystr -> option (option pystr * pystr)) y tail :
  (forall t, exists g, K t = close_fence g t) ->
  ~ In 96%N y ->
  (forall x t, y = t ++ [x] -> isspace x = false) ->
  K tail <> None ->
  star_lazy space_or_not (y ++ tail) K = K tail.
Proof.
  intros HK Hbt Hlast Htail. induction y as [|c y IH].
  - cbn [app]. destruct tail as [|c t]; cbn [star_lazy];
      destruct (K _); congruence.
  - cbn [app star_lazy].
    destruct (visible_suffix Hlast) as (ws & d & r & Hs & Hws & Hd).
    assert (Heq : c :: y ++ tail = ws ++ d :: r ++ tail).
    { pose proof (f_equal (fun l => l ++ tail) Hs) as H0. cbn beta in H0.
      rewrite <- app_assoc in H0. exact H0. }
    assert (Hnone : K (c :: y ++ tail) = None).
    { destruct (HK (c :: y ++ tail)) as (g & ->). rewrite Heq.
      apply close_fence_blocked; [assumption|].
      intros c' t' [= <- _]. split; [exact Hd|].
      intros ->. apply Hbt.
      match goal with
      | |- In _ ?l => replace l with (ws ++ 96%N :: r) by (symmetry; exact Hs)
      end.
      apply in_or_app. right. now left. }
    rewrite Hnone.
    assert (Hc : space_or_not c = true)
      by (unfold space_or_not; destruct (isspace c); reflexivity).
    rewrite Hc. apply IH.
    + intros Hi. apply Hbt. now right.
    + intros x t Hy. apply (Hlast x (c :: t)). cbn [app]. now rewrite Hy.
Qed.

Lemma search_here r s g rest :
  match_here r s = Some (g, rest) -> search r s = Some (Found [] g rest).
Proof. intros H. destruct s; cbn [search]; now rewrite H. Qed.

Lemma firstn_front (a b : pystr) :
  firstn (length (a ++ b) - length b) (a ++ b) = a.
Proof.
  rewrite length_app.
  replace (length a + length b - length b) with (length a + 0) by lia.
  rewrite firstn_app_2. cbn [firstn]. apply app_nil_r.
Qed.

Lemma fence_body_payload y ws2 post :
  ~ In 96%N y ->
  (forall x t, y = t ++ [x] -> isspace x = false) ->
  all_space ws2 ->
  fence_body (y ++ ws2 ++ fence_close ++ post) = Some (Some y, post).
Proof.
  intros Hbt Hlast Hws. unfold fence_body.
  set (T := y ++ ws2 ++ fence_close ++ post).
  set (K := fun t' => close_fence (Some (firstn (length T - length t') T)) t').
  assert (HK : K (ws2 ++ fence_close ++ post) = Some (Some y, post)).
  { unfold K. rewrite close_fence_found by assumption. do 2 f_equal.
    f_equal. unfold T. apply firstn_front. }
  unfold T at 1. rewrite (@star_lazy_payload K); try assumption.
  - intros t. unfold K. eauto.
  - rewrite HK. discriminate.
Qed.

Lemma fence_after_spaces ws1 y ws2 post :
  all_space ws1 -> all_space ws2 -> ~ In 96%N y ->
  (forall c t, y = c :: t -> isspace c = false) ->
  (forall x t, y = t ++ [x] -> isspace x = false) ->
  star_greedy isspace (ws1 ++ y ++ ws2 ++ fence_close ++ post) fence_body
  = Some (Some y, post).
Proof.
  intros H1 H2 Hbt Hhead Hlast.
  destruct y as [|c y].
  - cbn [app]. rewrite app_assoc.
    assert (Hws : all_space (ws1 ++ ws2)) by now apply Forall_app.
    induction Hws as [|x ws Hx _ IH].
    + cbn [app]. rewrite fence_close_chars. cbn [app star_greedy].
      change (isspace 96%N) with false. cbv beta match.
      apply (@fence_body_payload [] [] post); auto. constructor.
    + cbn [app star_greedy]. now rewrite Hx, IH.
  - induction H1 as [|x ws Hx _ IH].
    + cbn [app star_greedy]. rewrite (Hhead c y eq_refl).
      now apply (@fence_body_payload (c :: y)).
    + cbn [app star_greedy] in IH |- *. now rewrite Hx, IH.
Qed.

(** X5: a fenced block is unwrapped exactly: for a reply made of a
    preamble, the opening fence, whitespace, a payload, whitespace, the
    closing fence and any trailer, where neither the preamble nor the
    payload holds a backtick and the payload neither starts nor ends with
    whitespace, the text handed to [json.loads] is the payload. *)
Theorem fenced_payload_extracted (pre ws1 payload ws2 post : pystr) :
  ~ In backtick pre -> ~ In backtick payload ->
  all_space ws1 -> all_space ws2 ->
  (forall c t, payload = c :: t -> isspace c = false) ->
  (forall c t, payload = t ++ [c] -> isspace c = false) ->
  parse_candidate
    (pre ++ py "```json" ++ ws1 ++ payload ++ ws2 ++ py "```" ++ post)
  = payload.
Proof.
  intros Hpre Hbt H1 H2 Hhead Hlast. unfold parse_candidate.
  rewrite search_fence_skip by exact Hpre.
  rewrite (@search_here fence_re _ (Some payload) post); [reflexivity|].
  rewrite fence_here. change (py "```json") with fence_open.
  rewrite strip_prefix_app. change (py "```") with fence_close.
  now apply fence_after_spaces.
Qed.

Lemma fenced_payload_extracted_witness :
  parse_candidate
    (py "Here it is:" ++ py "```json" ++ [NL] ++ reply_object
     ++ [NL] ++ py "```" ++ py " enjoy")
  = reply_object.
Proof.
  apply fenced_payload_extracted.
  - vm_compute. intuition discriminate.
  - vm_compute. intuition discriminate.
  - repeat constructor.
  - repeat constructor.
  - intros c t H. vm_compute in H. injection H as <- _. reflexivity.
  - intros c t H. vm_compute in H.
    change [123; 34; 97; 34; 58; 49; 125]%N
      with ([123; 34; 97; 34; 58; 49]%N ++ [125%N]) in H.
    apply app_inj_tail in H. destruct H as [_ <-]. reflexivity.
Defined.

Lemma star_greedy_none (A : Type) cls s (k : pystr -> option A) :
  (forall u v, s = u ++ v -> k v = None) -> star_greedy cls s k = None.
Proof.
  induction s as [|c s IH]; intros H; cbn [star_greedy].
  - now apply (H [] []).
  - rewrite IH by (intros u v ->; now apply (H (c :: u) v)).
    destruct (cls c); now apply (H [] (c :: s)).
Qed.

Lemma star_lazy_none (A : Type) cls s (k : pystr -> option A) :
  (forall u v, s = u ++ v -> k v = None) -> star_lazy cls s k = None.
Proof.
  induction s as [|c s IH]; intros H; cbn [star_lazy].
  - now rewrite (H [] []).
  - rewrite (H [] (c :: s)) by reflexivity.
    rewrite IH by (intros u v ->; now apply (H (c :: u) v)).
    now destruct (cls c).
Qed.

Lemma close_fence_none g t : ~ In 96%N t -> close_fence g t = None.
Proof.
  intros Ht. unfold close_fence. apply star_greedy_none. intros u v ->.
  rewrite fence_close_chars. destruct v as [|c v]; [reflexivity|].
  cbn [strip_prefix]. destruct (N.eqb_spec 96 c) as [<-|]; [|reflexivity].
  exfalso. apply Ht. apply in_or_app. right. now left.
Qed.

Lemma fence_never_closed t :
  ~ In 96%N t -> star_greedy isspace t fence_body = None.
Proof.
  intros Ht. apply star_greedy_none. intros u v ->.
  unfold fence_body. apply star_lazy_none. intros u' v' Hv.
  apply close_fence_none. intros Hi. apply Ht.
  apply in_or_app. right. rewrite Hv. apply in_or_app. now right.
Qed.

(** X6: an opening fence that is never closed is no fenced block: for a
    reply made of a preamble, the opening fence and a remainder, none of
    them holding a further backtick (a reply cut off before its closing
    fence), the text handed to [json.loads] is the whole reply. *)
Theorem unclosed_fence_keeps_reply (pre rest : pystr) :
  ~ In backtick pre -> ~ In backtick rest ->
  parse_candidate (pre ++ py "```json" ++ rest) = pre ++ py "```json" ++ rest.
Proof.
  intros Hpre Hrest. unfold parse_candidate.
  rewrite search_fence_skip by exact Hpre.
  assert (H : search fence_re (py "```json" ++ rest) = None); [|now rewrite H].
  change (py "```json") with fence_open.
  rewrite fence_open_chars. cbn [app].
  apply search_None_cons. split.
  { change (96 :: 96 :: 96 :: 106 :: 115 :: 111 :: 110 :: rest)%N
      with (fence_open ++ rest).
    rewrite fence_here, strip_prefix_app. now apply fence_never_closed. }
  apply search_None_cons. split.
  { rewrite fence_here, fence_open_chars. reflexivity. }
  apply search_None_cons. split.
  { rewrite fence_here, fence_open_chars. reflexivity. }
  pose proof (@search_fence_skip ([106; 115; 111; 110]%N ++ rest) []) as Hs.
  rewrite app_nil_r in Hs. cbn [app] in Hs.
  refine (eq_trans (Hs _) _).
  - cbn [In]. unfold backtick in Hrest. intuition discriminate.
  - reflexivity.
Qed.

Lemma unclosed_fence_keeps_reply_witness :
  parse_candidate (py "Sure: " ++ py "```json" ++ [NL] ++ py "{ ")
  = py "Sure: " ++ py "```json" ++ [NL] ++ py "{ ".
Proof.
  apply (@unclosed_fence_keeps_reply (py "Sure: ") ([NL] ++ py "{ "));
    vm_compute; intuition discriminate.
Defined.

(** ** What the methods do to the outside *)

Lemma scrape_with_requests_effects (w : world) (self : RomaYemekScraper)
      (url : pystr) :
  (exists html_content, fst (scrape_with_requests w self url) = Ok html_content)
  /\ get_calls (snd (scrape_with_requests w self url)) = [request_for self url]
  /\ chat_calls (snd (scrape_with_requests w self url)) = []
  /\ written (snd (scrape_with_requests w self url)) = []
  /\ printed (snd (scrape_with_requests w self url)) = [].
Proof.
  unfold scrape_with_requests, request_for, call_get.
  destruct (requests_get w _) as [e|sc rs body].
  - repeat split; try reflexivity. eexists. reflexivity.
  - unfold raise_for_status. run.
    destruct ((400 <=? sc)%Z && (sc <? 500)%Z);
      [repeat split; try reflexivity; eexists; reflexivity|].
    destruct ((500 <=? sc)%Z && (sc <? 600)%Z);
      repeat split; try reflexivity; eexists; reflexivity.
Qed.

(** X7: [scrape_with_requests] issues exactly one GET, for the given url
    with the scraper's headers, proxies and timeout, whether it succeeds
    or fails (no retry), and does nothing else outside the log: no
    completion call, no file, no output. *)
Theorem scrape_with_requests_one_request (w : world) (self : RomaYemekScraper)
        (url : pystr) :
  get_calls (snd (scrape_with_requests w self url))
  = [ GetRequest url (request_headers self) (request_proxies self) (timeout self) ]
  /\ chat_calls (snd (scrape_with_requests w self url)) = []
  /\ written (snd (scrape_with_requests w self url)) = []
  /\ printed (snd (scrape_with_requests w self url)) = [].
Proof. apply scrape_with_requests_effects. Qed.

(** X8: every failed fetch is logged once at [ERROR] level, and nothing
    else is: when [requests.get] raises, the record is the prefix
    [Scraping hatası: ] followed by the text of the exception; a response
    gives one record when its status is 4xx or 5xx and none otherwise. *)
Theorem scrape_with_requests_logs_failure (w : world) (self : RomaYemekScraper)
        (url : pystr) :
  match requests_get w (request_for self url) with
  | GetRaises e =>
    error_logs (snd (scrape_with_requests w self url))
    = [ py "Scraping hatası: " ++ str_exn e ]
  | GetResponse status_code _ _ =>
    length (error_logs (snd (scrape_with_requests w self url)))
    = if ((400 <=? status_code) && (status_code <? 600))%Z then 1 else 0
  end.
Proof.
  unfold scrape_with_requests, request_for, call_get.
  destruct (requests_get w _) as [e|sc rs body].
  - reflexivity.
  - unfold raise_for_status. run.
    destruct (Z.leb_spec 400 sc); destruct (Z.ltb_spec sc 500);
      destruct (Z.leb_spec 500 sc); destruct (Z.ltb_spec sc 600);
      try reflexivity; lia.
Qed.

(** X9: whatever the page and whatever the markup converter returns, the
    markdown [html_to_markdown] hands on is normalised: it has no three
    consecutive newlines, no whitespace at either end, no boilerplate
    span, and [_clean_markdown] would leave it unchanged. *)
Theorem html_to_markdown_normalised (w : world) (html_content : pystr) :
  exists markdown_content,
    fst (html_to_markdown w html_content) = Ok markdown_content
    /\ _clean_markdown markdown_content = markdown_content
    /\ triple_newline_free markdown_content
    /\ trimmed markdown_content
    /\ (forall u p v,
          markdown_content <> u ++ skip_text ++ p ++ anchor_text ++ v).
Proof.
  destruct (html_to_markdown_run w html_content) as (Hres & _).
  eexists. split; [exact Hres|].
  set (m := md w _).
  assert (Hfix : _clean_markdown (_clean_markdown m) = _clean_markdown m).
  { pose proof (clean_markdown_free m) as Hfree.
    pose proof (clean_markdown_trimmed m) as Htrim.
    unfold _clean_markdown at 1. unfold collapse_blank_lines.
    rewrite sub_no_match by now apply free_search.
    rewrite (strip_id Htrim).
    unfold remove_boilerplate at 1. apply sub_no_match.
    unfold _clean_markdown. apply remove_boilerplate_settled. }
  split; [exact Hfix|].
  split; [apply clean_markdown_free|].
  split; [apply clean_markdown_trimmed|].
  apply boilerplate_free_search. unfold _clean_markdown.
  apply remove_boilerplate_settled.
Qed.

(** X10: [process_with_openai] raises nothing: when the completion call
    raises, it returns the dictionary with [error] true and the text of
    the exception under [error_message], and logs that text once at
    [ERROR] level. *)
Theorem completion_failure_returned_as_error (w : world)
        (self : RomaYemekScraper) (markdown_content : pystr) (e : exn) :
  chat_completions_create w (completion_request (prompt_for markdown_content))
  = ChatRaises e ->
  fst (process_with_openai w self markdown_content)
  = Ok (PDict [ (py "error", PBool true);
                (py "error_message", PStr (str_exn e)) ])
  /\ error_logs (snd (process_with_openai w self markdown_content))
     = [ py "OpenAI API hatası: " ++ str_exn e ].
Proof.
  intros Hcall.
  unfold process_with_openai, prompt_for, call_chat in *.
  destruct (len markdown_content >? max_chars)%Z; run;
    rewrite Hcall; run; split; reflexivity.
Qed.

Lemma completion_failure_returned_as_error_witness :
  fst (process_with_openai
         (stub_world page_ok (ChatRaises (Exn OpenAIError (py "quota exceeded"))))
         stub_scraper (py "Carbonara"))
  = Ok (PDict [ (py "error", PBool true);
                (py "error_message", PStr (py "quota exceeded")) ]).
Proof.
  apply (@completion_failure_returned_as_error
           (stub_world page_ok (ChatRaises (Exn OpenAIError (py "quota exceeded"))))
           stub_scraper (py "Carbonara")
           (Exn OpenAIError (py "quota exceeded"))).
  reflexivity.
Defined.

Lemma process_with_openai_effects (w : world) (self : RomaYemekScraper)
      (markdown_content : pystr) :
  (exists result, fst (process_with_openai w self markdown_content) = Ok result)
  /\ chat_calls (snd (process_with_openai w self markdown_content))
     = [completion_request (prompt_for markdown_content)]
  /\ get_calls (snd (process_with_openai w self markdown_content)) = []
  /\ written (snd (process_with_openai w self markdown_content)) = []
  /\ printed (snd (process_with_openai w self markdown_content)) = [].
Proof.
  unfold process_with_openai, prompt_for, call_chat, json_loads.
  destruct (len markdown_content >? max_chars)%Z; run;
    destruct (chat_completions_create w _) as [e|reply]; run;
    try (repeat split; try reflexivity; eexists; reflexivity);
    destruct (Json.loads (parse_candidate reply));
    repeat split; try reflexivity; eexists; reflexivity.
Qed.

(** X11: [process_with_openai] issues exactly one completion call,
    whatever the service answers (no retry after a failure or after a
    reply that is not JSON): model [gpt-3.5-turbo-16k], at most 4000
    output tokens, the prompt built from the document as user message;
    it fetches nothing, writes no file and prints nothing. *)
Theorem process_with_openai_one_call (w : world) (self : RomaYemekScraper)
        (markdown_content : pystr) :
  (exists rq,
      chat_calls (snd (process_with_openai w self markdown_content)) = [rq]
      /\ chat_model rq = py "gpt-3.5-turbo-16k"
      /\ chat_max_tokens rq = 4000%Z
      /\ chat_user rq = prompt_for markdown_content)
  /\ get_calls (snd (process_with_openai w self markdown_content)) = []
  /\ written (snd (process_with_openai w self markdown_content)) = []
  /\ printed (snd (process_with_openai w self markdown_content)) = [].
Proof.
  destruct (process_with_openai_effects w self markdown_content)
    as (_ & Hchat & Hrest).
  split; [|exact Hrest].
  eexists. split; [exact Hchat|]. repeat split.
Qed.

Lemma html_to_markdown_effects (w : world) (html_content : pystr) :
  get_calls (snd (html_to_markdown w html_content)) = []
  /\ chat_calls (snd (html_to_markdown w html_content)) = []
  /\ written (snd (html_to_markdown w html_content)) = []
  /\ printed (snd (html_to_markdown w html_content)) = [].
Proof.
  unfold html_to_markdown.
  destruct (soup_article w html_content); run; repeat split; reflexivity.
Qed.

(** ** The pipeline as a whole *)

Ltac observe :=
  unfold get_calls, chat_calls, written, printed in *;
  cbn [flat_map app]; rewrite ?flat_map_app; cbn [flat_map app].

(** how a run of the pipeline goes, by the outcome of the fetch *)
Lemma pipeline_run (w : world) (self : RomaYemekScraper) (url : pystr) :
  exists html_content,
    fst (scrape_with_requests w self url) = Ok html_content
    /\ match html_content with
       | [] =>
         fst (scrape_and_process_roma_yemek w self url)
         = Ok [ (py "url", PStr url);
                (py "title", PStr (py "Roma'da Ne Nerede Yenir"));
                (py "processed", PBool false);
                (py "openai_result", PDict []) ]
         /\ chat_calls (snd (scrape_and_process_roma_yemek w self url)) = []
       | _ :: _ =>
         exists markdown_content openai_result,
           fst (html_to_markdown w html_content) = Ok markdown_content
           /\ fst (process_with_openai w self markdown_content) = Ok openai_result
           /\ fst (scrape_and_process_roma_yemek w self url)
              = Ok [ (py "url", PStr url);
                     (py "title", PStr (py "Roma'da Ne Nerede Yenir"));
                     (py "processed", PBool true);
                     (py "openai_result", openai_result) ]
           /\ chat_calls (snd (scrape_and_process_roma_yemek w self url))
              = [completion_request (prompt_for markdown_content)]
       end
    /\ get_calls (snd (scrape_and_process_roma_yemek w self url))
       = [request_for self url]
    /\ written (snd (scrape_and_process_roma_yemek w self url)) = []
    /\ printed (snd (scrape_and_process_roma_yemek w self url)) = [].
Proof.
  destruct (scrape_with_requests_effects w self url)
    as ((html & Hfetch) & Hg & Hc & Hw & Hp).
  exists html. split; [exact Hfetch|].
  unfold scrape_and_process_roma_yemek.
  destruct (scrape_with_requests w self url) as [r t]. cbn [fst snd] in *.
  subst r. run. destruct html as [|c html].
  - run. observe. rewrite Hg, Hc, Hw, Hp. repeat split; reflexivity.
  - destruct (html_to_markdown_run w (c :: html)) as (Hmd & _).
    destruct (html_to_markdown_effects w (c :: html)) as (Hg1 & Hc1 & Hw1 & Hp1).
    set (markdown_content :=
           _clean_markdown
             (md w match soup_article w (c :: html) with
                   | Some article => article
                   | None => soup_body w (c :: html)
                   end)) in *.
    destruct (process_with_openai_effects w self markdown_content)
      as ((result & Hres) & Hc2 & Hg2 & Hw2 & Hp2).
    destruct (html_to_markdown w (c :: html)) as [rm tm] eqn:Em.
    cbn [fst snd] in *. subst rm. run.
    destruct (process_with_openai w self markdown_content) as [ro to] eqn:Ep.
    cbn [fst snd] in *. subst ro. run. observe.
    rewrite Hg, Hc, Hw, Hp, Hg1, Hc1, Hw1, Hp1, Hg2, Hc2, Hw2, Hp2.
    split; [|repeat split; reflexivity].
    exists markdown_content, result. rewrite Ep. repeat split; reflexivity.
Qed.

(** X12: [processed] reports the fetch, not the extraction: whenever the
    page is fetched, the pipeline returns the url, the fixed title,
    [processed] true and, under [openai_result], what
    [process_with_openai] returned for the normalised page; after a
    failed completion call that is the dictionary with [error] true. *)
Theorem fetched_page_is_processed (w : world) (self : RomaYemekScraper)
        (url : pystr) (c : char) (html : pystr) :
  fst (scrape_with_requests w self url) = Ok (c :: html) ->
  exists markdown_content openai_result,
    fst (html_to_markdown w (c :: html)) = Ok markdown_content
    /\ fst (process_with_openai w self markdown_content) = Ok openai_result
    /\ fst (scrape_and_process_roma_yemek w self url)
       = Ok [ (py "url", PStr url);
              (py "title", PStr (py "Roma'da Ne Nerede Yenir"));
              (py "processed", PBool true);
              (py "openai_result", openai_result) ]
    /\ (forall e,
          chat_completions_create w
            (completion_request (prompt_for markdown_content)) = ChatRaises e ->
          openai_result = error_result (str_exn e)).
Proof.
  intros Hfetch.
  destruct (pipeline_run w self url) as (h & Hh & Hcase & _).
  rewrite Hfetch in Hh. injection Hh as <-.
  destruct Hcase as (markdown_content & openai_result & Hmd & Hres & Hrun & _).
  exists markdown_content, openai_result. repeat split; try assumption.
  intros e He. rewrite process_with_openai_result, He in Hres.
  now injection Hres as <-.
Qed.

Lemma fetched_page_is_processed_witness :
  fst (scrape_and_process_roma_yemek
         (stub_world page_ok (ChatRaises (Exn OpenAIError (py "quota exceeded"))))
         stub_scraper stub_url)
  = Ok [ (py "url", PStr stub_url);
         (py "title", PStr (py "Roma'da Ne Nerede Yenir"));
         (py "processed", PBool true);
         (py "openai_result", error_result (py "quota exceeded")) ].
Proof.
  destruct (@fetched_page_is_processed
              (stub_world page_ok (ChatRaises (Exn OpenAIError (py "quota exceeded"))))
              stub_scraper stub_url 60%N (py "article>Carbonara</article>"))
    as (markdown_content & openai_result & _ & _ & Hrun & Hfail).
  - vm_compute. reflexivity.
  - rewrite Hrun.
    rewrite (Hfail (Exn OpenAIError (py "quota exceeded")) eq_refl).
    reflexivity.
Defined.

(** X13: a run of the pipeline issues exactly one GET, and one completion
    call exactly when the fetched page is not empty, never more; it
    writes no file and prints nothing. *)
Theorem pipeline_external_calls (w : world) (self : RomaYemekScraper)
        (url : pystr) :
  get_calls (snd (scrape_and_process_roma_yemek w self url))
  = [request_for self url]
  /\ (exists html_content,
        fst (scrape_with_requests w self url) = Ok html_content
        /\ length (chat_calls (snd (scrape_and_process_roma_yemek w self url)))
           = match html_content with [] => 0 | _ :: _ => 1 end)
  /\ written (snd (scrape_and_process_roma_yemek w self url)) = []
  /\ printed (snd (scrape_and_process_roma_yemek w self url)) = [].
Proof.
  destruct (pipeline_run w self url) as (h & Hh & Hcase & Hg & Hw & Hp).
  split; [exact Hg|]. split; [|split; assumption].
  exists h. split; [exact Hh|].
  destruct h as [|c h].
  - destruct Hcase as [_ ->]. reflexivity.
  - destruct Hcase as (m & r & _ & _ & _ & ->). reflexivity.
Qed.

(** ** [main] after the pipeline *)

Lemma main_unfold (w : world) :
  main w
  = (scraper <- __init__ (py "open_api_keyiniz") None None 30 ;;
     results <- scrape_and_process_roma_yemek w scraper roma_yemek_url ;;
     main_report w results).
Proof. reflexivity. Qed.

(** [main] is the report on what the pipeline returned, after the log of
    the constructor and the events of the pipeline. *)
Lemma main_after_pipeline (w : world) (results : dict) :
  fst (scrape_and_process_roma_yemek w main_scraper roma_yemek_url) = Ok results ->
  main w
  = (fst (main_report w results),
     EvLog INFO (py "Roma Yemek Scraper başlatıldı")
     :: snd (scrape_and_process_roma_yemek w main_scraper roma_yemek_url)
     ++ snd (main_report w results)).
Proof.
  intros Hrun. rewrite main_unfold. unfold __init__. run.
  change {| openai_api_key := py "open_api_keyiniz"; proxy := None;
            user_agent := default_user_agent; timeout := 30 |}
    with main_scraper.
  destruct (scrape_and_process_roma_yemek w main_scraper roma_yemek_url)
    as [r t]. cbn [fst snd] in *. subst r. run.
  destruct (main_report w results) as [r' t']. reflexivity.
Qed.

(** the report on a result dictionary of the pipeline's shape *)
Lemma main_report_shape (w : world) (url title : pyval) (b : bool) (R : pyval) :
  main_report w [ (py "url", url); (py "title", title);
                  (py "processed", PBool b); (py "openai_result", R) ]
  = (fst (main_print w b R),
     EvWrite result_file
             (json_dumps w (PDict [ (py "url", url); (py "title", title);
                                    (py "processed", PBool b);
                                    (py "openai_result", R) ]))
     :: EvLog INFO (py "Sonuçlar kaydedildi: roma_yemek_rehberi.json")
     :: snd (main_print w b R)).
Proof.
  unfold main_report, main_print.
  rewrite results_processed, results_openai_result. run.
  cbn [truthy].
  destruct (bind (if b then py_in (py "error") R else (Ok true, [])) _)
    as [r t]. reflexivity.
Qed.

(** the branches print, and do nothing else *)
Lemma main_print_effects w b R :
  written (snd (main_print w b R)) = []
  /\ get_calls (snd (main_print w b R)) = []
  /\ chat_calls (snd (main_print w b R)) = [].
Proof.
  unfold main_print, py_in, py_getitem.
  destruct b, R as [| | | | |l|d]; run; cbn [andb negb];
    try (repeat split; reflexivity).
  - destruct (contains (py "error") s); run; cbn [negb];
      [|repeat split; reflexivity].
    destruct (contains (py "error_message") s); run; repeat split; reflexivity.
  - destruct (existsb _ l); run; cbn [negb]; [|repeat split; reflexivity].
    destruct (existsb _ l); run; repeat split; reflexivity.
  - destruct (dict_in (py "error") d); run; cbn [negb];
      [|repeat split; reflexivity].
    unfold dict_in. destruct (dict_get (py "error_message") d); run;
      repeat split; reflexivity.
  - destruct (contains (py "error_message") s); run; repeat split; reflexivity.
  - destruct (existsb _ l); run; repeat split; reflexivity.
  - unfold dict_in. destruct (dict_get (py "error_message") d); run;
      repeat split; reflexivity.
Qed.

Lemma main_of_results (w : world) (b : bool) (R : pyval) :
  fst (scrape_and_process_roma_yemek w main_scraper roma_yemek_url)
  = Ok [ (py "url", PStr roma_yemek_url);
         (py "title", PStr (py "Roma'da Ne Nerede Yenir"));
         (py "processed", PBool b);
         (py "openai_result", R) ] ->
  fst (main w) = fst (main_print w b R)
  /\ printed (snd (main w)) = printed (snd (main_print w b R))
  /\ written (snd (main w))
     = [ (result_file,
          json_dumps w (PDict [ (py "url", PStr roma_yemek_url);
                                (py "title", PStr (py "Roma'da Ne Nerede Yenir"));
                                (py "processed", PBool b);
                                (py "openai_result", R) ])) ].
Proof.
  intros Hrun.
  destruct (pipeline_run w main_scraper roma_yemek_url)
    as (_ & _ & _ & _ & Hw & Hp).
  destruct (main_print_effects w b R) as (Hw' & _).
  rewrite (main_after_pipeline w Hrun), main_report_shape. cbn [fst snd].
  split; [reflexivity|]. observe. rewrite Hw, Hp, Hw'.
  split; reflexivity.
Qed.

(** X14: [main] saves the result of the pipeline before it prints
    anything, also when the pipeline failed: every run writes exactly one
    file, [roma_yemek_rehberi.json], holding the serialised result
    dictionary, and no output precedes the write. *)
Theorem main_saves_result_first (w : world) :
  exists results before_write after_write,
    fst (scrape_and_process_roma_yemek w main_scraper roma_yemek_url) = Ok results
    /\ snd (main w)
       = before_write
         ++ EvWrite (py "roma_yemek_rehberi.json") (json_dumps w (PDict results))
         :: after_write
    /\ printed before_write = []
    /\ written before_write = []
    /\ written after_write = [].
Proof.
  destruct (pipeline_run w main_scraper roma_yemek_url)
    as (h & _ & Hcase & _ & Hw & Hp).
  assert (Hshape : exists b R,
             fst (scrape_and_process_roma_yemek w main_scraper roma_yemek_url)
             = Ok [ (py "url", PStr roma_yemek_url);
                    (py "title", PStr (py "Roma'da Ne Nerede Yenir"));
                    (py "processed", PBool b);
                    (py "openai_result", R) ]).
  { destruct h as [|c h].
    - destruct Hcase as [Hrun _]. now exists false, (PDict []).
    - destruct Hcase as (m & R & _ & _ & Hrun & _). now exists true, R. }
  destruct Hshape as (b & R & Hrun).
  destruct (main_print_effects w b R) as (Hw' & _).
  eexists.
  exists (EvLog INFO (py "Roma Yemek Scraper başlatıldı")
          :: snd (scrape_and_process_roma_yemek w main_scraper roma_yemek_url)).
  exists (EvLog INFO (py "Sonuçlar kaydedildi: roma_yemek_rehberi.json")
          :: snd (main_print w b R)).
  split; [exact Hrun|].
  rewrite (main_after_pipeline w Hrun), main_report_shape. cbn [fst snd].
  split; [reflexivity|]. observe. rewrite Hw, Hp, Hw'. repeat split.
Qed.

(** X15: when the fetch returns the empty string, [main] prints the
    failure line and nothing else, with no message, and ends normally. *)
Theorem main_after_empty_fetch (w : world) :
  fst (scrape_with_requests w main_scraper roma_yemek_url) = Ok [] ->
  fst (main w) = Ok tt
  /\ printed (snd (main w))
     = [ [NL; NL] ++ py "Hata: Roma yemek rehberi işlenemedi." ].
Proof.
  intros Hfetch.
  destruct (pipeline_run w main_scraper roma_yemek_url) as (h & Hh & Hcase & _).
  rewrite Hfetch in Hh. injection Hh as <-. destruct Hcase as [Hrun _].
  destruct (main_of_results w Hrun) as (Hres & Hprint & _).
  rewrite Hres, Hprint. split; reflexivity.
Qed.

Lemma main_after_empty_fetch_witness :
  printed (snd (main (stub_world page_unreachable (ChatReply reply_prose))))
  = [ [NL; NL] ++ py "Hata: Roma yemek rehberi işlenemedi." ].
Proof.
  apply (@main_after_empty_fetch
           (stub_world page_unreachable (ChatReply reply_prose))).
  vm_compute. reflexivity.
Defined.

(** what [main] does once a page was fetched, by what the completion step
    returned *)
Lemma main_fetched (w : world) (c : char) (html markdown_content : pystr)
      (R : pyval) :
  fst (scrape_with_requests w main_scraper roma_yemek_url) = Ok (c :: html) ->
  fst (html_to_markdown w (c :: html)) = Ok markdown_content ->
  fst (process_with_openai w main_scraper markdown_content) = Ok R ->
  fst (main w) = fst (main_print w true R)
  /\ printed (snd (main w)) = printed (snd (main_print w true R))
  /\ written (snd (main w))
     = [ (result_file, json_dumps w (PDict (processed_results roma_yemek_url R))) ].
Proof.
  intros Hfetch Hmd Hres.
  destruct (pipeline_run w main_scraper roma_yemek_url) as (h & Hh & Hcase & _).
  rewrite Hfetch in Hh. injection Hh as <-.
  destruct Hcase as (m & R' & Hmd' & Hres' & Hrun & _).
  rewrite Hmd in Hmd'. injection Hmd' as <-.
  rewrite Hres in Hres'. injection Hres' as <-.
  exact (main_of_results w Hrun).
Qed.

(** X16: when the page is fetched and the completion call raises, [main]
    prints the failure line followed by the line [Hata mesajı: ] with the
    text of the exception, and ends normally. *)
Theorem main_after_completion_failure (w : world) (c : char)
        (html markdown_content : pystr) (e : exn) :
  fst (scrape_with_requests w main_scraper roma_yemek_url) = Ok (c :: html) ->
  fst (html_to_markdown w (c :: html)) = Ok markdown_content ->
  chat_completions_create w (completion_request (prompt_for markdown_content))
  = ChatRaises e ->
  fst (main w) = Ok tt
  /\ printed (snd (main w))
     = [ [NL; NL] ++ py "Hata: Roma yemek rehberi işlenemedi.";
         py "Hata mesajı: " ++ str_exn e ].
Proof.
  intros Hfetch Hmd Hcall.
  destruct (@main_fetched w c html markdown_content (error_result (str_exn e))
              Hfetch Hmd) as (Hres & Hprint & _).
  - now rewrite process_with_openai_result, Hcall.
  - rewrite Hres, Hprint. split; reflexivity.
Qed.

Lemma main_after_completion_failure_witness :
  printed (snd (main (stub_world page_ok
                        (ChatRaises (Exn OpenAIError (py "quota exceeded"))))))
  = [ [NL; NL] ++ py "Hata: Roma yemek rehberi işlenemedi.";
      py "Hata mesajı: " ++ py "quota exceeded" ].
Proof.
  apply (@main_after_completion_failure
           (stub_world page_ok (ChatRaises (Exn OpenAIError (py "quota exceeded"))))
           60%N (py "article>Carbonara</article>")
           (py "<article>Carbonara</article>")
           (Exn OpenAIError (py "quota exceeded")));
    vm_compute; reflexivity.
Defined.





(** ** The fenced block, in general *)

Section StarChoice.
Variable A : Type.

(** [c*] stops at the longest run of the class from which the rest of
    the pattern succeeds. *)
Lemma star_greedy_choice cls s (k : pystr -> option A) a :
  star_greedy cls s k = Some a ->
  exists m t, s = m ++ t /\ Forall (fun c => cls c = true) m /\ k t = Some a
    /\ forall c t', t = c :: t' -> cls c = true -> star_greedy cls t' k = None.
Proof.
  induction s as [|c s IH]; cbn [star_greedy].
  - intros H. exists [], []. repeat split; auto. discriminate.
  - destruct (cls c) eqn:Ec.
    + destruct (star_greedy cls s k) as [a'|] eqn:E.
      * intros [= ->]. destruct (IH eq_refl) as (m & t & -> & Hm & Hk & Hmax).
        exists (c :: m), t. repeat split; auto.
      * intros H. exists [], (c :: s). repeat split; auto.
        now intros c' t' [= <- <-] _.
    + intros H. exists [], (c :: s). repeat split; auto.
      intros c' t' [= <- <-]. congruence.
Qed.

(** [c*?] stops at the shortest run from which the rest succeeds. *)
Lemma star_lazy_choice cls s (k : pystr -> option A) a :
  star_lazy cls s k = Some a ->
  exists m t, s = m ++ t /\ k t = Some a
    /\ forall m1 m2, m = m1 ++ m2 -> m2 <> [] -> k (m2 ++ t) = None.
Proof.
  induction s as [|c s IH]; cbn [star_lazy].
  - destruct (k []) eqn:E; [|discriminate].
    intros [= ->]. exists [], []. repeat split; auto.
    intros m1 m2 Hm. symmetry in Hm. apply app_eq_nil in Hm. tauto.
  - destruct (k (c :: s)) eqn:E.
    + intros [= ->]. exists [], (c :: s). repeat split; auto.
      intros m1 m2 Hm. symmetry in Hm. apply app_eq_nil in Hm. tauto.
    + destruct (cls c); [|discriminate].
      intros H. destruct (IH H) as (m & t & -> & Hk & Hmin).
      exists (c :: m), t. repeat split; auto.
      intros [|x m1] m2; cbn [app].
      * intros <- _. exact E.
      * intros [= <- ->] Hne. now apply Hmin with (m1 := m1).
Qed.

Lemma star_greedy_here cls s (k : pystr -> option A) :
  k s <> None -> star_greedy cls s k <> None.
Proof.
  destruct s as [|c s]; cbn [star_greedy]; [auto|].
  destruct (cls c); [|auto].
  destruct (star_greedy cls s k); [discriminate | auto].
Qed.

Lemma star_lazy_here cls s (k : pystr -> option A) :
  k s <> None -> star_lazy cls s k <> None.
Proof.
  destruct s as [|c s]; cbn [star_lazy]; destruct (k _); congruence.
Qed.

(** whether [c*?] succeeds depends only on where the rest succeeds *)
Lemma star_lazy_success cls s (k1 k2 : pystr -> option A) :
  (forall t, k1 t <> None -> k2 t <> None) ->
  star_lazy cls s k1 <> None -> star_lazy cls s k2 <> None.
Proof.
  intros Hk. induction s as [|c s IH]; cbn [star_lazy].
  - specialize (Hk []). destruct (k1 []), (k2 []); try congruence.
    intros _. exfalso. apply Hk; congruence.
  - specialize (Hk (c :: s)).
    destruct (k1 (c :: s)), (k2 (c :: s)); try congruence.
    + intros _. exfalso. apply Hk; congruence.
    + destruct (cls c); auto.
Qed.
End StarChoice.

Lemma close_fence_Some g t g' r :
  close_fence g t = Some (g', r) ->
  g' = g /\ exists ws, t = ws ++ fence_close ++ r /\ all_space ws.
Proof.
  unfold close_fence. intros H. apply star_greedy_choice in H.
  destruct H as (ws & t0 & -> & Hws & Hk & _).
  destruct (strip_prefix fence_close t0) as [r0|] eqn:E; [|discriminate].
  injection Hk as <- <-. apply strip_prefix_Some in E. subst t0.
  split; [reflexivity|]. now exists ws.
Qed.

Lemma close_fence_indep g g' t :
  close_fence g t <> None -> close_fence g' t <> None.
Proof.
  destruct (close_fence g t) as [[g0 r]|] eqn:E; [|congruence].
  intros _. apply close_fence_Some in E. destruct E as (_ & ws & -> & Hws).
  rewrite close_fence_found by assumption. discriminate.
Qed.

Lemma close_fence_space g x t :
  isspace x = true -> close_fence g t <> None -> close_fence g (x :: t) <> None.
Proof.
  intros Hx H. destruct (close_fence g t) as [[g0 r]|] eqn:E; [|congruence].
  apply close_fence_Some in E. destruct E as (_ & ws & -> & Hws).
  change (x :: ws ++ fence_close ++ r) with ((x :: ws) ++ fence_close ++ r).
  rewrite close_fence_found by now constructor. discriminate.
Qed.

Lemma fence_body_Some t g r :
  fence_body t = Some (g, r) ->
  exists y ws2,
    g = Some y /\ t = y ++ ws2 ++ fence_close ++ r /\ all_space ws2
    /\ (forall c u, y = u ++ [c] -> isspace c = false)
    /\ (forall u v, y <> u ++ fence_close ++ v).
Proof.
  unfold fence_body. intros H. apply star_lazy_choice in H.
  destruct H as (y & t1 & Ht & Hk & Hmin).
  apply close_fence_Some in Hk. destruct Hk as (Hg & ws2 & -> & Hws).
  exists y, ws2. subst t. rewrite firstn_front in Hg.
  split; [now symmetry|]. split; [reflexivity|]. split; [assumption|]. split.
  - intros c u Hy. destruct (isspace c) eqn:Ec; [exfalso | reflexivity].
    pose proof (Hmin u [c] Hy ltac:(discriminate)) as Hn. revert Hn.
    cbn [app]. apply close_fence_space; [assumption|].
    rewrite close_fence_found by assumption. discriminate.
  - intros u v Hy.
    assert (Hne : fence_close ++ v <> [])
      by (rewrite fence_close_chars; discriminate).
    pose proof (Hmin u (fence_close ++ v) Hy Hne) as Hn. revert Hn.
    rewrite <- app_assoc.
    rewrite (@close_fence_found _ [] (v ++ ws2 ++ fence_close ++ r));
      [discriminate | constructor].
Qed.

Lemma fence_body_space x t :
  isspace x = true -> fence_body (x :: t) <> None -> fence_body t <> None.
Proof.
  intros Hx. unfold fence_body at 1. cbn [star_lazy].
  destruct (close_fence _ (x :: t)) as [[g r]|] eqn:E.
  - intros _. apply close_fence_Some in E. destruct E as (_ & ws & Hs & Hws).
    destruct ws as [|c ws].
    + exfalso. rewrite fence_close_chars in Hs. cbn [app] in Hs.
      injection Hs as -> _. discriminate.
    + cbn [app] in Hs. injection Hs as _ ->.
      inversion Hws; subst. unfold fence_body.
      apply (@star_lazy_here _ space_or_not (ws ++ fence_close ++ r)
               (fun t' => close_fence
                            (Some (firstn (length (ws ++ fence_close ++ r)
                                           - length t')
                                          (ws ++ fence_close ++ r))) t')).
      rewrite close_fence_found by assumption. discriminate.
  - assert (Hso : space_or_not x = true)
      by (unfold space_or_not; destruct (isspace x); reflexivity).
    rewrite Hso. apply star_lazy_success.
    intros t0. apply close_fence_indep.
Qed.

Lemma fence_here_Some s g r :
  match_here fence_re s = Some (g, r) ->
  exists ws1 y ws2,
    g = Some y
    /\ s = fence_open ++ ws1 ++ y ++ ws2 ++ fence_close ++ r
    /\ all_space ws1 /\ all_space ws2
    /\ (forall c u, y = c :: u -> isspace c = false)
    /\ (forall c u, y = u ++ [c] -> isspace c = false)
    /\ (forall u v, y <> u ++ fence_close ++ v).
Proof.
  rewrite fence_here.
  destruct (strip_prefix fence_open s) as [s1|] eqn:E; [|discriminate].
  apply strip_prefix_Some in E. subst s. intros H.
  apply star_greedy_choice in H.
  destruct H as (ws1 & t & -> & Hws1 & Hbody & Hmax).
  pose proof Hbody as Hb.
  apply fence_body_Some in Hb.
  destruct Hb as (y & ws2 & -> & Ht & Hws2 & Hlast & Hfree).
  exists ws1, y, ws2. subst t. repeat split; try assumption.
  intros c u ->. destruct (isspace c) eqn:Ec; [exfalso | reflexivity].
  cbn [app] in Hmax, Hbody.
  apply (@star_greedy_here _ isspace (u ++ ws2 ++ fence_close ++ r) fence_body).
  - apply (@fence_body_space c); [assumption|]. rewrite Hbody. discriminate.
  - now apply (Hmax c).
Qed.

(** X19: what a fenced block is, in full: whenever the text handed to
    [json.loads] differs from the reply, the reply is a preamble, the
    opening fence, whitespace, that text, whitespace, the closing fence
    and a trailer; the text neither starts nor ends with whitespace and
    holds no closing fence. *)
Theorem fenced_block_shape (reply : pystr) :
  parse_candidate reply <> reply ->
  exists pre ws1 ws2 post,
    reply = pre ++ py "```json" ++ ws1 ++ parse_candidate reply
                ++ ws2 ++ py "```" ++ post
    /\ all_space ws1 /\ all_space ws2
    /\ (forall c u, parse_candidate reply = c :: u -> isspace c = false)
    /\ (forall c u, parse_candidate reply = u ++ [c] -> isspace c = false)
    /\ (forall u v, parse_candidate reply <> u ++ py "```" ++ v).
Proof.
  unfold parse_candidate.
  destruct (search fence_re reply) as [f|] eqn:E; [|congruence].
  destruct (search_Some _ _ E) as (m & Hs & _ & Hm & _).
  apply fence_here_Some in Hm.
  destruct Hm as (ws1 & y & ws2 & Hg & Hm & H1 & H2 & Hhead & Hlast & Hfree).
  rewrite Hg. intros _.
  exists (before f), ws1, ws2, (after f). repeat split; try assumption.
  rewrite Hs at 1. now rewrite Hm.
Qed.

Lemma fenced_block_shape_witness :
  exists pre ws1 ws2 post,
    reply_fenced_prose
    = pre ++ py "```json" ++ ws1 ++ py "not json" ++ ws2 ++ py "```" ++ post.
Proof.
  destruct (@fenced_block_shape reply_fenced_prose
              ltac:(vm_compute; discriminate))
    as (pre & ws1 & ws2 & post & Hs & _).
  exists pre, ws1, ws2, post. exact Hs.
Defined.

(** X20: a text made of whitespace only, the empty text included, is
    normalised to the empty text. *)
Theorem clean_markdown_blank (s : pystr) :
  all_space s -> _clean_markdown s = [].
Proof.
  intros Hs.
  assert (Hsub : forall a b, subsequence a b -> all_space b -> all_space a).
  { unfold all_space.
    induction 1 as [|c a b Hab IH|c a b Hab IH]; intros Hb.
    - constructor.
    - inversion Hb; subst. constructor; [assumption | now apply IH].
    - inversion Hb; subst. now apply IH. }
  pose proof (Hsub _ _ (collapse_subsequence s) Hs) as Hc.
  unfold _clean_markdown.
  assert (Hstrip : strip (collapse_blank_lines s) = []).
  { pose proof (@strip_fixed (collapse_blank_lines s) [] []) as H.
    rewrite app_nil_r in H. apply H; try assumption; [|constructor].
    split; intros c t Ht; [discriminate|].
    destruct t; discriminate. }
  rewrite Hstrip. reflexivity.
Qed.

Lemma clean_markdown_blank_witness :
  _clean_markdown ([NL; NL; NL; NL] ++ py "  ") = [].
Proof.
  apply clean_markdown_blank. repeat constructor.
Defined.
